(** * Huffman file compressor: the codec of [huffman_tool.py]

    A shallow embedding of the codec functions of [src/huffman_tool.py]
    (frequency table, Huffman tree built with [heapq], code table, bit
    packing, container layout, decoding walk) and the properties of the
    specification stated over them.

    Modelling conventions.
    - A Python [str] used as a bit string is a [list ascii]; the literal
      ["0"] is the one-element list with the character '0'.
    - A text is a list of symbols of an arbitrary type [A] with decidable
      equality (Python compares characters by value).
    - A Python [int] is a [Z]; a [bytes]/[bytearray] is a [list Z] of values
      in [0, 256).
    - A [dict] whose iteration order matters ([Counter], the header's
      ["freq"] object) is an association list in insertion order.
    - The standard library module [heapq] is embedded from CPython's
      [heapq.py]; [json] and the UTF-8 codec are parameters of the
      container section. *)

From Stdlib Require Import ZArith Ascii Lia.
From stdpp Require Import base tactics option list strings.

Set Warnings "-register-all".

Local Open Scope Z_scope.
Local Open Scope nat_scope.

(** ** Python exceptions that the codec can raise *)

Inductive Exn : Type :=
  | AttributeError   (* attribute access on [None] *)
  | KeyError         (* missing [dict] key *)
  | ValueError       (* [int(s, 2)] on a malformed literal *)
  | TypeError.       (* an operation on a value of the wrong type *)

(** ** [heapq]: the binary heap of the Python standard library

    [heapq] works on a plain list and compares elements with [<] only
    ([lt] below).  The two [while] loops take a fuel argument; the
    wrappers pass a fuel that the loops never exhaust
    ([siftdown_loop_fuel], [siftup_loop_fuel]). *)

Section heapq.
Context {T : Type} (lt : T → T → bool).

(** The loop of [_siftdown(heap, startpos, pos)], followed by the final
    [heap[pos] = newitem]. *)
Fixpoint siftdown_loop (fuel : nat) (heap : list T) (newitem : T)
    (startpos pos : nat) : list T :=
  match fuel with
  | O => <[pos := newitem]> heap
  | S fuel' =>
      if bool_decide (startpos < pos) then
        let parentpos := (pos - 1) / 2 in
        match heap !! parentpos with
        | Some parent =>
            if lt newitem parent
            then siftdown_loop fuel' (<[pos := parent]> heap) newitem startpos parentpos
            else <[pos := newitem]> heap
        | None => <[pos := newitem]> heap
        end
      else <[pos := newitem]> heap
  end.

Definition siftdown (heap : list T) (startpos pos : nat) : list T :=
  match heap !! pos with
  | Some newitem => siftdown_loop pos heap newitem startpos pos
  | None => heap
  end.

(** The index of the smaller child chosen in [_siftup]:
    [rightpos < endpos and not heap[childpos] < heap[rightpos]]. *)
Definition smaller_child (heap : list T) (endpos childpos : nat) : nat :=
  let rightpos := childpos + 1 in
  if bool_decide (rightpos < endpos) then
    match heap !! childpos, heap !! rightpos with
    | Some c, Some r => if lt c r then childpos else rightpos
    | _, _ => childpos
    end
  else childpos.

(** The loop of [_siftup(heap, pos)]: the smaller child moves up until
    the hole reaches a leaf; returns the heap and the final hole. *)
Fixpoint siftup_loop (fuel : nat) (heap : list T) (endpos pos : nat)
    : list T * nat :=
  match fuel with
  | O => (heap, pos)
  | S fuel' =>
      let childpos := 2 * pos + 1 in
      if bool_decide (childpos < endpos) then
        let childpos := smaller_child heap endpos childpos in
        match heap !! childpos with
        | Some child => siftup_loop fuel' (<[pos := child]> heap) endpos childpos
        | None => (heap, pos)
        end
      else (heap, pos)
  end.

Definition siftup (heap : list T) (pos : nat) : list T :=
  let endpos := length heap in
  let startpos := pos in
  match heap !! pos with
  | Some newitem =>
      let '(heap, pos) := siftup_loop endpos heap endpos pos in
      siftdown (<[pos := newitem]> heap) startpos pos
  | None => heap
  end.

(** [heapify(x)]: [for i in reversed(range(n//2)): _siftup(x, i)]. *)
Definition heapify (x : list T) : list T :=
  foldl siftup x (reverse (seq 0 (length x / 2))).

(** [heappush(heap, item)]. *)
Definition heappush (heap : list T) (item : T) : list T :=
  let heap := heap ++ [item] in
  siftdown heap 0 (length heap - 1).

(** [heappop(heap)]: the popped item and the heap left; [None] stands
    for the [IndexError] of [pop] on an empty list, which the loop of
    [build_huffman_tree] never meets ([heappop_is_Some]). *)
Definition heappop (heap : list T) : option (T * list T) :=
  match last heap with
  | None => None
  | Some lastelt =>
      match removelast heap with
      | [] => Some (lastelt, [])
      | returnitem :: rest =>
          Some (returnitem, siftup (lastelt :: rest) 0)
      end
  end.
End heapq.

(** ** The codec *)

(** A Python bit string. *)
Abbreviation bits := (list ascii).

Section codec.
Context {A : Type} `{EqDecision A}.

(** *** Block 1: [class Node] *)

Inductive Node : Type :=
  mkNode { char : option A; freq : Z; left : option Node; right : option Node }.

(** [Node.__lt__]. *)
Definition Node_lt (self other : Node) : bool := (freq self <? freq other)%Z.

(** *** Block 2: frequency table and Huffman tree *)

(** One counting step of [Counter]: [d[c] = d.get(c, 0) + 1], a new key
    going to the end. *)
Fixpoint count_symbol (d : list (A * Z)) (c : A) : list (A * Z) :=
  match d with
  | [] => [(c, 1%Z)]
  | (k, v) :: d' =>
      if decide (k = c) then (k, (v + 1)%Z) :: d' else (k, v) :: count_symbol d' c
  end.

Definition build_frequency_table (text : list A) : list (A * Z) :=
  foldl count_symbol [] text.

(** The [while len(heap) > 1] loop of [build_huffman_tree]. *)
Fixpoint merge_loop (fuel : nat) (heap : list Node) : list Node :=
  match fuel with
  | O => heap
  | S fuel' =>
      if bool_decide (1 < length heap) then
        match heappop Node_lt heap with
        | Some (left, heap) =>
            match heappop Node_lt heap with
            | Some (right, heap) =>
                let merged := mkNode None (freq left + freq right)%Z (Some left) (Some right) in
                merge_loop fuel' (heappush Node_lt heap merged)
            | None => heap
            end
        | None => heap
        end
      else heap
  end.

(** [build_huffman_tree(freq_table)]; the result [None] is Python's
    [None], returned for an empty table. *)
Definition build_huffman_tree (freq_table : list (A * Z)) : option Node :=
  let heap := (λ '(char, freq), mkNode (Some char) freq None None) <$> freq_table in
  let heap := heapify Node_lt heap in
  head (merge_loop (length heap) heap).

(** *** Block 3: code table *)

(** [code_table[k] = v] on an insertion-ordered [dict]. *)
Fixpoint dict_set {V : Type} (d : list (A * V)) (k : A) (v : V) : list (A * V) :=
  match d with
  | [] => [(k, v)]
  | (k', v') :: d' =>
      if decide (k' = k) then (k', v) :: d' else (k', v') :: dict_set d' k v
  end.

(** [d[k]]; [None] is the [KeyError]. *)
Fixpoint dict_get {V : Type} (d : list (A * V)) (k : A) : option V :=
  match d with
  | [] => None
  | (k', v') :: d' => if decide (k' = k) then Some v' else dict_get d' k
  end.

Definition zero : ascii := "0"%char.
Definition one : ascii := "1"%char.

(** [generate_codes] on a node that is not [None]; the table is the
    shared [dict] that the recursive calls update in turn. *)
Fixpoint generate_codes_node (node : Node) (current_code : bits)
    (code_table : list (A * bits)) : list (A * bits) :=
  match node with
  | mkNode (Some c) _ _ _ =>
      dict_set code_table c (match current_code with [] => [zero] | _ => current_code end)
  | mkNode None _ l r =>
      let code_table :=
        match l with
        | Some n => generate_codes_node n (current_code ++ [zero]) code_table
        | None => code_table
        end in
      match r with
      | Some n => generate_codes_node n (current_code ++ [one]) code_table
      | None => code_table
      end
  end.

Definition generate_codes (node : option Node) (current_code : bits)
    (code_table : list (A * bits)) : list (A * bits) :=
  match node with
  | None => code_table
  | Some n => generate_codes_node n current_code code_table
  end.

(** *** Block 4: encoding and bit packing *)

(** [encode_text]; [None] is the [KeyError] of a symbol without a code. *)
Definition encode_text (text : list A) (code_table : list (A * bits)) : option bits :=
  codes ← mapM (dict_get code_table) text; Some (concat codes).

Definition pad_encoded_text (encoded_text : bits) : bits * Z :=
  let extra_padding := (8 - Z.of_nat (length encoded_text) mod 8)%Z in
  let extra_padding := if bool_decide (extra_padding = 8%Z) then 0%Z else extra_padding in
  (encoded_text ++ replicate (Z.to_nat extra_padding) zero, extra_padding).

(** [int(s, 2)] on a string of binary digits; [None] is the [ValueError]
    raised for the empty string and for any other character.  (Python
    also reads a sign, a [0b] prefix, underscores and blanks; no bit
    string of the codec holds them.) *)
Definition digit2 (ch : ascii) : option Z :=
  if decide (ch = zero) then Some 0%Z
  else if decide (ch = one) then Some 1%Z else None.

Definition int2 (s : bits) : option Z :=
  match s with
  | [] => None
  | _ => foldl (λ acc ch, a ← acc; d ← digit2 ch; Some (2 * a + d)%Z) (Some 0%Z) s
  end.

(** [range(0, stop, 8)]. *)
Definition range8 (stop : nat) : list nat :=
  (λ k, 8 * k) <$> seq 0 ((stop + 7) / 8).

(** [get_byte_array]; [None] is a [ValueError] of [int].  A chunk has at
    most eight digits, so [bytearray.append] never rejects its value
    ([int2_lt_256]). *)
Definition get_byte_array (padded_encoded_text : bits) : option (list Z) :=
  mapM (λ i, int2 (take 8 (drop i padded_encoded_text)))
       (range8 (length padded_encoded_text)).

(** *** Block 6: unpacking and the decoding walk *)

Fixpoint bin_pos (p : positive) : bits :=
  match p with
  | xH => [one]
  | xO p => bin_pos p ++ [zero]
  | xI p => bin_pos p ++ [one]
  end.

(** [bin(n)[2:]]: the digits after the [0b] prefix (for a negative [n]
    the slice starts inside the prefix). *)
Definition bin_tail (n : Z) : bits :=
  match n with
  | Z0 => [zero]
  | Zpos p => bin_pos p
  | Zneg p => "b"%char :: bin_pos p
  end.

(** [s.rjust(width, fill)]. *)
Definition rjust (width : nat) (fill : ascii) (s : bits) : bits :=
  replicate (width - length s) fill ++ s.

(** ["".join(bin(byte)[2:].rjust(8, '0') for byte in compressed_data)]. *)
Definition bit_string_of (compressed_data : list Z) : bits :=
  compressed_data ≫= (λ byte, rjust 8 zero (bin_tail byte)).

(** [if extra_padding > 0: bit_string = bit_string[:-extra_padding]]. *)
Definition remove_padding (bit_string : bits) (extra_padding : Z) : bits :=
  if bool_decide (0 < extra_padding)%Z
  then take (length bit_string - Z.to_nat extra_padding) bit_string
  else bit_string.

(** The decoding loop of [decompress_file]: [current_node] is [cur],
    [huffman_tree] is [root]; an attribute read on [None] raises
    [AttributeError]. *)
Fixpoint decode_loop (root cur : option Node) (bit_string : bits)
    (decoded_text : list A) : Exn + list A :=
  match bit_string with
  | [] => inr decoded_text
  | bit :: bit_string =>
      match cur with
      | None => inl AttributeError
      | Some n =>
          match (if decide (bit = zero) then left n else right n) with
          | None => inl AttributeError
          | Some m =>
              match char m with
              | Some c => decode_loop root root bit_string (decoded_text ++ [c])
              | None => decode_loop root (Some m) bit_string decoded_text
              end
          end
      end
  end.

(** *** Blocks 5 and 6: the container and the two entry points *)

(** The header [{"freq": dict(freq_table), "padding": extra_padding}]. *)
Record Header : Type := mkHeader { h_freq : list (A * Z); h_padding : Z }.

(** What [json.loads] can give for the two fields of a header read from
    a file; the code checks the type of neither.

    ["padding"]: an integer ([true] and [false] are the integers 1 and
    0 in Python); a float [x], kept by the one test the code makes of
    it, [x > 0]; or a value that is not a number ([null], a string, an
    array, an object).

    ["freq"]: an object of integer counts, or a value without [items]
    ([null], a number, a string, an array).  An object with a count that
    is not an integer (a float, a string, an array, [null]: compared
    and added by Python's rules for these types) has no counterpart
    here. *)
Inductive PaddingValue : Type :=
  | PaddingInt (n : Z)
  | PaddingFloat (positive : bool)
  | PaddingOther.

Inductive FreqValue : Type :=
  | FreqObject (table : list (A * Z))
  | FreqOther.

Record LoadedHeader : Type :=
  mkLoaded { freq_value : FreqValue; padding_value : PaddingValue }.

(** The header that [json.loads] gives for the text of a header that
    the code has built. *)
Definition loaded (header : Header) : LoadedHeader :=
  mkLoaded (FreqObject (h_freq header)) (PaddingInt (h_padding header)).

(** [build_huffman_tree(freq_table)] on the value of ["freq"]:
    [freq_table.items()] raises [AttributeError] on a value that is not
    an object. *)
Definition build_huffman_tree_of (freq_table : FreqValue) : Exn + option Node :=
  match freq_table with
  | FreqObject table => inr (build_huffman_tree table)
  | FreqOther => inl AttributeError
  end.

(** [if extra_padding > 0: bit_string = bit_string[:-extra_padding]] on
    the value of ["padding"]: the comparison raises [TypeError] on a
    value that is not a number, the slice raises [TypeError] on a float
    index. *)
Definition remove_padding_of (bit_string : bits) (extra_padding : PaddingValue)
    : Exn + bits :=
  match extra_padding with
  | PaddingInt n => inr (remove_padding bit_string n)
  | PaddingFloat positive => if positive then inl TypeError else inr bit_string
  | PaddingOther => inl TypeError
  end.

(** What a call of [compress_file] or [decompress_file] does once its
    input file has been read: it writes the output and shows the success
    box, or returns after a warning or an error box with nothing written,
    or lets an exception escape. *)
Inductive Outcome (T : Type) : Type :=
  | Success (output : T)
  | Warning (message : string)
  | Error (message : string)
  | Raised (e : Exn).
Global Arguments Success {T} output.
Global Arguments Warning {T} message.
Global Arguments Error {T} message.
Global Arguments Raised {T} e.

(** [struct.pack("I", n)] and [struct.unpack("I", b)[0]]: four bytes in
    the byte order of the host; [None] is [struct.error] for a value
    outside [0, 2^32). *)
Definition struct_pack_I (big_endian : bool) (n : Z) : option (list Z) :=
  if bool_decide (0 ≤ n < 2 ^ 32)%Z then
    let le := [n mod 256; (n / 256) mod 256; (n / 65536) mod 256; (n / 16777216) mod 256]%Z in
    Some (if big_endian then reverse le else le)
  else None.

Definition struct_unpack_I (big_endian : bool) (b : list Z) : Z :=
  foldr (λ byte acc, byte + 256 * acc)%Z 0%Z (if big_endian then reverse b else b).

Section container.
(** The library calls around the header:
    [json_dumps h] is [json.dumps(header).encode("utf-8")];
    [json_loads b] is [json.loads(b.decode("utf-8"))] followed by the
    reads of ["freq"] and ["padding"], [None] standing for any exception
    of that block (bytes that are not UTF-8 or not JSON, a value that
    is not an object, a missing key). *)
Context (json_dumps : Header → list Z) (json_loads : list Z → option LoadedHeader).
Context (big_endian : bool).

(** [compress_file], from the text read from [input_path] to the bytes
    written to [output_path]; [struct.pack] is the one step of the write
    that is modelled as able to fail. *)
Definition compress_file (text : list A) : Outcome (list Z) :=
  match text with
  | [] => Warning "Input file is empty!"
  | _ =>
      let freq_table := build_frequency_table text in
      let huffman_tree := build_huffman_tree freq_table in
      let code_table := generate_codes huffman_tree [] [] in
      match encode_text text code_table with
      | None => Raised KeyError
      | Some encoded_text =>
          let '(padded_encoded_text, extra_padding) := pad_encoded_text encoded_text in
          match get_byte_array padded_encoded_text with
          | None => Raised ValueError
          | Some byte_array =>
              let header := mkHeader freq_table extra_padding in
              let header_bytes := json_dumps header in
              let header_length := Z.of_nat (length header_bytes) in
              match struct_pack_I big_endian header_length with
              | None => Error "Could not write output file"
              | Some length_bytes => Success (length_bytes ++ header_bytes ++ byte_array)
              end
          end
      end
  end.

(** [decompress_file], from the bytes of [input_path] to the text written
    to [output_path]; opening and writing the output file are taken to
    succeed. *)
Definition decompress_file (file : list Z) : Outcome (list A) :=
  let header_length_bytes := take 4 file in
  if bool_decide (length header_length_bytes < 4) then
    Error "Could not read compressed file"
  else
    let header_length := Z.to_nat (struct_unpack_I big_endian header_length_bytes) in
    let header_bytes := take header_length (drop 4 file) in
    match json_loads header_bytes with
    | None => Error "Could not read compressed file"
    | Some header =>
        let freq_table := freq_value header in
        let extra_padding := padding_value header in
        let compressed_data := drop header_length (drop 4 file) in
        match compressed_data with
        | [] => Warning "Compressed file is empty!"
        | _ =>
            match build_huffman_tree_of freq_table with
            | inl e => Raised e
            | inr huffman_tree =>
                let bit_string := bit_string_of compressed_data in
                match remove_padding_of bit_string extra_padding with
                | inl e => Raised e
                | inr bit_string =>
                    match decode_loop huffman_tree huffman_tree bit_string [] with
                    | inl e => Raised e
                    | inr decoded_text => Success decoded_text
                    end
                end
            end
        end
    end.

(** The two parts that [decompress_file] reads after the length field:
    [header_bytes] and [compressed_data]. *)
Definition header_bytes_of (file : list Z) : list Z :=
  take (Z.to_nat (struct_unpack_I big_endian (take 4 file))) (drop 4 file).

Definition payload_of (file : list Z) : list Z :=
  drop (Z.to_nat (struct_unpack_I big_endian (take 4 file))) (drop 4 file).

(** The library reads back the header that it wrote for a frequency
    table, whatever the padding in [0, 7]. *)
Definition header_round_trip (freq_table : list (A * Z)) : Prop :=
  ∀ padding, (0 ≤ padding ≤ 7)%Z →
    json_loads (json_dumps (mkHeader freq_table padding)) =
    Some (loaded (mkHeader freq_table padding)).

End container.

End codec.

Global Arguments Node : clear implicits.
Global Arguments Header : clear implicits.
Global Arguments FreqValue : clear implicits.
Global Arguments LoadedHeader : clear implicits.

(** ** Shapes used in the statements *)

Section shapes.
Context {A : Type}.

(** The trees that [build_huffman_tree] makes: a leaf holds a symbol and
    no child, a merged node holds no symbol and two children. *)
Inductive full_tree : Node A → Prop :=
  | full_leaf c f : full_tree (mkNode (Some c) f None None)
  | full_merged f l r :
      full_tree l → full_tree r → full_tree (mkNode None f (Some l) (Some r)).

(** The symbols at the leaves, left to right. *)
Fixpoint leaves (node : Node A) : list A :=
  match node with
  | mkNode (Some c) _ _ _ => [c]
  | mkNode None _ l r =>
      (match l with Some n => leaves n | None => [] end) ++
      (match r with Some n => leaves n | None => [] end)
  end.

(** The leaves with the path from [node] to each: [zero] for a step to
    the left child, [one] for a step to the right child. *)
Fixpoint paths (node : Node A) : list (A * bits) :=
  match node with
  | mkNode (Some c) _ _ _ => [(c, [])]
  | mkNode None _ l r =>
      (match l with Some n => prod_map id (cons zero) <$> paths n | None => [] end) ++
      (match r with Some n => prod_map id (cons one) <$> paths n | None => [] end)
  end.

(** The code that [generate_codes] stores for the leaf reached by [path]
    when the call on the node started from [current_code]:
    [current_code or "0"] at the leaf. *)
Definition leaf_code (current_code path : bits) : bits :=
  match current_code ++ path with
  | [] => [zero]
  | code => code
  end.

Definition codes_of (node : Node A) (current_code : bits) : list (A * bits) :=
  prod_map id (leaf_code current_code) <$> paths node.

(** A bit string holds the characters '0' and '1' only; a byte value
    lies in [0, 256). *)
Definition is_bit (ch : ascii) : Prop := ch = zero ∨ ch = one.
Definition is_byte (v : Z) : Prop := (0 ≤ v < 256)%Z.

End shapes.

(** ** Measures used in the statements *)

Section measures.
Context {A : Type} `{EqDecision A}.

(** The number of occurrences of a symbol in a text. *)
Definition occurrences (c : A) (text : list A) : nat :=
  length (filter (λ x, x = c) text).

(** The sum of a list of integers. *)
Definition total (l : list Z) : Z := foldr Z.add 0%Z l.

(** The leaves with their frequencies, left to right. *)
Fixpoint leaf_items (node : Node A) : list (A * Z) :=
  match node with
  | mkNode (Some c) f _ _ => [(c, f)]
  | mkNode None _ l r =>
      (match l with Some n => leaf_items n | None => [] end) ++
      (match r with Some n => leaf_items n | None => [] end)
  end.

(** A full tree in which every merged node holds the sum of the
    frequencies of its two children, as [build_huffman_tree] sets it. *)
Inductive summed_tree : Node A → Prop :=
  | summed_leaf c f : summed_tree (mkNode (Some c) f None None)
  | summed_merged l r :
      summed_tree l → summed_tree r →
      summed_tree (mkNode None (freq l + freq r)%Z (Some l) (Some r)).

(** The length of the code of a symbol in a code table, 0 without a
    code. *)
Definition code_length (code_table : list (A * bits)) (c : A) : nat :=
  from_option length 0 (dict_get code_table c).

End measures.

(** The heap order of [heapq] on a list, for elements compared by an
    integer key: no element is below its parent, the parent of index [j]
    being index [(j - 1) / 2]. *)
Definition min_heap {T : Type} (key : T → Z) (heap : list T) : Prop :=
  ∀ j parent child,
    0 < j → heap !! ((j - 1) / 2) = Some parent → heap !! j = Some child →
    (key parent ≤ key child)%Z.

(** The heap order restricted to the parents at index [i] or more: what
    [heapify] has reached when its loop has handled the indices from
    [i] on. *)
Definition heap_from {T : Type} (key : T → Z) (i : nat) (heap : list T) : Prop :=
  ∀ j parent child,
    0 < j → i ≤ (j - 1) / 2 →
    heap !! ((j - 1) / 2) = Some parent → heap !! j = Some child →
    (key parent ≤ key child)%Z.

(** The state inside [_siftup] and [_siftdown], where the element at
    index [hole] is set aside: the heap order from [i] holds between the
    other elements, and the children of the hole are not below the
    parent of the hole. *)
Definition hole_ok {T : Type} (key : T → Z) (i hole : nat) (heap : list T) : Prop :=
  (∀ j parent child,
     0 < j → i ≤ (j - 1) / 2 → j ≠ hole → (j - 1) / 2 ≠ hole →
     heap !! ((j - 1) / 2) = Some parent → heap !! j = Some child →
     (key parent ≤ key child)%Z) ∧
  (∀ j parent child,
     0 < hole → i ≤ (hole - 1) / 2 → 0 < j → (j - 1) / 2 = hole →
     heap !! ((hole - 1) / 2) = Some parent → heap !! j = Some child →
     (key parent ≤ key child)%Z).

(** Index [j] lies in the subtree of index [i]. *)
Inductive below (i : nat) : nat → Prop :=
  | below_here : below i i
  | below_child j : 0 < j → below i ((j - 1) / 2) → below i j.

(** ** A reference [json] for Latin-1 symbols

    An instance of the two library parameters of the container, for
    running the entry points on concrete texts.  [dumps] writes what
    [json.dumps(header).encode("utf-8")] writes for a header whose keys
    are single characters below U+0100 (default separators, non-ASCII
    escaped); [loads] reads that layout back, with a scalar or an empty
    array in the place of either field, and rejects everything else. *)

Module JsonRef.

Definition code (ch : ascii) : Z := Z.of_N (N_of_ascii ch).
Definition chr (n : Z) : ascii := ascii_of_N (Z.to_N n).
Definition bytes_of (s : string) : list Z := code <$> String.list_ascii_of_string s.
Definition quote : Z := 34.
Definition backslash : Z := 92.

(** The two-character escapes: the letter after the backslash and the
    character it stands for. *)
Definition short_escapes : list (Z * Z) :=
  [(quote, quote); (backslash, backslash); (code "b", 8); (code "f", 12);
   (code "n", 10); (code "r", 13); (code "t", 9)]%Z.

Definition hex_digit (n : Z) : Z :=
  if bool_decide (n < 10)%Z then (48 + n)%Z else (87 + n)%Z.

Definition hex_value (d : Z) : option Z :=
  if bool_decide (48 ≤ d ≤ 57)%Z then Some (d - 48)%Z
  else if bool_decide (97 ≤ d ≤ 102)%Z then Some (d - 87)%Z else None.

Definition escape (ch : ascii) : list Z :=
  let n := code ch in
  match list_find (λ e, e.2 = n) short_escapes with
  | Some (_, (letter, _)) => [backslash; letter]
  | None =>
      if bool_decide (32 ≤ n ≤ 126)%Z then [n]
      else backslash :: bytes_of "u00" ++ [hex_digit (n / 16); hex_digit (n mod 16)]
  end.

Fixpoint decimal_digits (fuel : nat) (n : Z) (acc : list Z) : list Z :=
  match fuel with
  | O => acc
  | S fuel =>
      let acc := (48 + n mod 10)%Z :: acc in
      if bool_decide (n < 10)%Z then acc else decimal_digits fuel (n / 10)%Z acc
  end.

Definition decimal (n : Z) : list Z :=
  let digits m := decimal_digits (S (Z.to_nat (Z.log2 m))) m [] in
  if bool_decide (n < 0)%Z then 45%Z :: digits (- n)%Z else digits n.

Definition dumps_entry (e : ascii * Z) : list Z :=
  quote :: escape e.1 ++ quote :: bytes_of ": " ++ decimal e.2.

Fixpoint join (sep : list Z) (items : list (list Z)) : list Z :=
  match items with
  | [] => []
  | [item] => item
  | item :: items => item ++ sep ++ join sep items
  end.

(** The text of a header, from the texts of its two fields. *)
Definition header_text (freq padding : list Z) : list Z :=
  bytes_of "{" ++ quote :: bytes_of "freq" ++ quote :: bytes_of ": " ++ freq ++
  bytes_of ", " ++ quote :: bytes_of "padding" ++ quote :: bytes_of ": " ++
  padding ++ bytes_of "}".

Definition dumps_freq (freq_table : list (ascii * Z)) : list Z :=
  bytes_of "{" ++ join (bytes_of ", ") (dumps_entry <$> freq_table) ++ bytes_of "}".

Definition dumps (header : Header ascii) : list Z :=
  header_text (dumps_freq (h_freq header)) (decimal (h_padding header)).

Definition expect (literal l : list Z) : option (list Z) :=
  if bool_decide (take (length literal) l = literal)
  then Some (drop (length literal) l) else None.

Fixpoint parse_digits (l : list Z) (acc : Z) : Z * list Z :=
  match l with
  | d :: l' =>
      if bool_decide (48 ≤ d ≤ 57)%Z
      then parse_digits l' (10 * acc + (d - 48))%Z else (acc, l)
  | [] => (acc, [])
  end.

Definition parse_natural (l : list Z) : option (Z * list Z) :=
  match l with
  | d :: _ => if bool_decide (48 ≤ d ≤ 57)%Z then Some (parse_digits l 0%Z) else None
  | [] => None
  end.

Definition parse_int (l : list Z) : option (Z * list Z) :=
  match expect [45%Z] l with
  | Some l => '(v, l) ← parse_natural l; Some ((- v)%Z, l)
  | None => parse_natural l
  end.

Definition parse_char (l : list Z) : option (ascii * list Z) :=
  match l with
  | [] => None
  | b :: l' =>
      if bool_decide (b = backslash) then
        match l' with
        | letter :: l'' =>
            match list_find (λ e, e.1 = letter) short_escapes with
            | Some (_, (_, n)) => Some (chr n, l'')
            | None =>
                l'' ← expect (bytes_of "u00") l';
                match l'' with
                | h1 :: h2 :: l'' =>
                    v1 ← hex_value h1; v2 ← hex_value h2;
                    Some (chr (16 * v1 + v2), l'')
                | _ => None
                end
            end
        | [] => None
        end
      else if bool_decide (32 ≤ b ≤ 126 ∧ b ≠ quote)%Z then Some (chr b, l') else None
  end.

Fixpoint parse_entries (fuel : nat) (l : list Z) : option (list (ascii * Z) * list Z) :=
  match fuel with
  | O => None
  | S fuel =>
      l ← expect [quote] l;
      '(k, l) ← parse_char l;
      l ← expect (quote :: bytes_of ": ") l;
      '(v, l) ← parse_int l;
      match expect (bytes_of ", ") l with
      | Some l => '(rest, l) ← parse_entries fuel l; Some ((k, v) :: rest, l)
      | None => l ← expect (bytes_of "}") l; Some ([(k, v)], l)
      end
  end.

(** A JSON number: an integer, or a float written [digits.digits], of
    which only the sign is kept (the fraction is taken short enough not
    to round to zero). *)
Definition parse_number (l : list Z) : option (PaddingValue * list Z) :=
  let '(negative, l) :=
    match expect [45%Z] l with Some l => (true, l) | None => (false, l) end in
  '(v, l) ← parse_natural l;
  match expect [46%Z] l with
  | Some l =>
      '(fraction, l) ← parse_natural l;
      Some (PaddingFloat (negb negative && bool_decide (0 < v ∨ 0 < fraction)%Z), l)
  | None => Some (PaddingInt (if negative then - v else v)%Z, l)
  end.

(** The rest of a string, after its opening quote. *)
Fixpoint parse_string_tail (fuel : nat) (l : list Z) : option (list Z) :=
  match fuel with
  | O => None
  | S fuel =>
      match expect [quote] l with
      | Some l => Some l
      | None => '(_, l) ← parse_char l; parse_string_tail fuel l
      end
  end.

Definition or_else {T : Type} (x y : option T) : option T :=
  match x with Some _ => x | None => y end.

(** A value that is not an object: [null], [true], [false], a string,
    an empty array or a number, as the padding it makes. *)
Definition parse_padding (l : list Z) : option (PaddingValue * list Z) :=
  or_else (l ← expect (bytes_of "null") l; Some (PaddingOther, l))
  (or_else (l ← expect (bytes_of "true") l; Some (PaddingInt 1, l))
  (or_else (l ← expect (bytes_of "false") l; Some (PaddingInt 0, l))
  (or_else (l ← expect [quote] l; l ← parse_string_tail (S (length l)) l;
            Some (PaddingOther, l))
  (or_else (l ← expect (bytes_of "[]") l; Some (PaddingOther, l))
  (parse_number l))))).

Definition parse_freq (l : list Z) : option (FreqValue ascii * list Z) :=
  match expect (bytes_of "{") l with
  | Some l =>
      match expect (bytes_of "}") l with
      | Some l => Some (FreqObject [], l)
      | None => '(freq, l) ← parse_entries (length l) l; Some (FreqObject freq, l)
      end
  | None => '(_, l) ← parse_padding l; Some (FreqOther, l)
  end.

(** Reads the layout that [header_text] writes: for ["freq"] an object
    of integers or a value that is not an object, for ["padding"] a
    value that is not an object. *)
Definition loads (b : list Z) : option (LoadedHeader ascii) :=
  l ← expect (bytes_of "{" ++ quote :: bytes_of "freq" ++ quote :: bytes_of ": ") b;
  '(freq, l) ← parse_freq l;
  l ← expect (bytes_of ", " ++ quote :: bytes_of "padding" ++ quote :: bytes_of ": ") l;
  '(padding, l) ← parse_padding l;
  l ← expect (bytes_of "}") l;
  match l with
  | [] => Some (mkLoaded freq padding)
  | _ => None
  end.

(** A text given as a string literal. *)
Definition text_of (s : string) : list ascii := String.list_ascii_of_string s.

End JsonRef.

(** * Properties *)

(** ** [heapq] keeps the elements of the list *)

Section heapq_facts.
Context {T : Type} (lt : T → T → bool).
Implicit Types (heap : list T) (x y : T).

Lemma insert_cons_swap heap j x y :
  j < length heap → y :: <[j := x]> heap ≡ₚ x :: <[j := y]> heap.
Proof.
  revert j. induction heap as [|a heap IH]; intros [|j] Hj; simpl in *; try lia.
  - apply perm_swap.
  - rewrite (perm_swap a y), (IH j) by lia. rewrite (perm_swap x a). done.
Qed.

(** Writing [x], read at [i], over position [j] and then [y] over
    position [i] moves the hole: the elements are those of the list with
    [y] written at [j]. *)
Lemma insert_move_hole heap i j x y :
  i ≠ j → heap !! i = Some x → j < length heap →
  <[i := y]> (<[j := x]> heap) ≡ₚ <[j := y]> heap.
Proof.
  revert i j. induction heap as [|a heap IH]; intros [|i] [|j] Hij Hi Hj;
    simpl in *; try done; try lia.
  - simplify_eq. apply insert_cons_swap. lia.
  - rewrite <- (list_insert_id heap i x) at 2 by done.
    apply insert_cons_swap. by eapply lookup_lt_Some.
  - f_equiv. apply IH; [congruence | done | lia].
Qed.

Lemma parentpos_lt pos : 0 < pos → (pos - 1) / 2 < pos.
Proof.
  intros Hpos. apply Nat.Div0.div_lt_upper_bound. lia.
Qed.

Lemma siftdown_loop_perm fuel heap x startpos pos :
  pos < length heap →
  siftdown_loop lt fuel heap x startpos pos ≡ₚ <[pos := x]> heap.
Proof.
  revert heap pos. induction fuel as [|fuel IH]; intros heap pos Hpos;
    cbn [siftdown_loop]; [done|].
  case_bool_decide as Hlt; [|done].
  destruct (heap !! ((pos - 1) / 2)) as [parent|] eqn:Hparent; [|done].
  destruct (lt x parent); [|done].
  pose proof (parentpos_lt pos) as Hpp.
  rewrite IH by (rewrite length_insert; lia).
  apply insert_move_hole; [lia | done | done].
Qed.

Lemma siftdown_perm heap startpos pos : siftdown lt heap startpos pos ≡ₚ heap.
Proof.
  unfold siftdown. destruct (heap !! pos) as [x|] eqn:Hx; [|done].
  rewrite siftdown_loop_perm by (by eapply lookup_lt_Some).
  by rewrite list_insert_id.
Qed.

Lemma smaller_child_range heap endpos childpos :
  childpos < endpos →
  childpos ≤ smaller_child lt heap endpos childpos < endpos.
Proof.
  intros Hc. unfold smaller_child. case_bool_decide; [|lia].
  destruct (heap !! childpos), (heap !! (childpos + 1)); try lia.
  destruct (lt _ _); lia.
Qed.

Lemma siftup_loop_spec fuel heap endpos pos heap' pos' x :
  pos < length heap →
  siftup_loop lt fuel heap endpos pos = (heap', pos') →
  pos' < length heap' ∧ <[pos' := x]> heap' ≡ₚ <[pos := x]> heap.
Proof.
  revert heap pos. induction fuel as [|fuel IH]; intros heap pos Hpos Hrun;
    cbn [siftup_loop] in Hrun; [by simplify_eq|].
  case_bool_decide as Hlt; [|by simplify_eq].
  pose proof (smaller_child_range heap endpos _ Hlt) as Hrange.
  destruct (heap !! smaller_child lt heap endpos (2 * pos + 1)) as [child|] eqn:Hchild;
    [|by simplify_eq].
  apply IH in Hrun as [Hlen Hperm].
  - split; [done|]. rewrite Hperm.
    apply insert_move_hole; [lia | done | done].
  - rewrite length_insert. by eapply lookup_lt_Some.
Qed.

Lemma siftup_perm heap pos : siftup lt heap pos ≡ₚ heap.
Proof.
  unfold siftup. destruct (heap !! pos) as [x|] eqn:Hx; [|done].
  destruct (siftup_loop lt (length heap) heap (length heap) pos) as [heap' pos'] eqn:Hrun.
  eapply (siftup_loop_spec _ _ _ _ _ _ x) in Hrun as [_ Hperm];
    [|by eapply lookup_lt_Some].
  by rewrite siftdown_perm, Hperm, list_insert_id.
Qed.

Lemma heapify_perm heap : heapify lt heap ≡ₚ heap.
Proof.
  unfold heapify. generalize (reverse (seq 0 (length heap / 2))) as idxs.
  intros idxs. revert heap. induction idxs as [|i idxs IH]; intros heap; simpl; [done|].
  by rewrite IH, siftup_perm.
Qed.

Lemma heappush_perm heap x : heappush lt heap x ≡ₚ x :: heap.
Proof.
  unfold heappush. cbv zeta. rewrite siftdown_perm.
  symmetry. apply Permutation_cons_append.
Qed.

Lemma heappop_perm heap x heap' :
  heappop lt heap = Some (x, heap') → x :: heap' ≡ₚ heap.
Proof.
  unfold heappop. destruct (last heap) as [lastelt|] eqn:Hlast; [|done].
  apply last_Some in Hlast as [front ->]. rewrite removelast_last.
  destruct front as [|returnitem rest]; intros [= <- <-]; [done|].
  rewrite siftup_perm. simpl. f_equiv.
  apply Permutation_cons_append.
Qed.

Lemma heappop_is_Some heap : heap ≠ [] → is_Some (heappop lt heap).
Proof.
  intros Hne. unfold heappop.
  destruct (last heap) eqn:Hlast; [|by apply last_None in Hlast].
  destruct (removelast heap); eauto.
Qed.

(** The loops never run out of the fuel their callers pass. *)
Lemma siftdown_loop_fuel fuel heap x startpos pos :
  pos ≤ fuel →
  siftdown_loop lt fuel heap x startpos pos = siftdown_loop lt pos heap x startpos pos.
Proof.
  revert fuel heap. induction (lt_wf pos) as [pos _ IH]. intros fuel heap Hfuel.
  destruct fuel as [|fuel], pos as [|pos]; cbn [siftdown_loop]; try done; try lia.
  case_bool_decide; [|done].
  destruct (heap !! _); [|done]. destruct (lt _ _); [|done].
  pose proof (parentpos_lt (S pos)) as Hpp.
  rewrite (IH ((S pos - 1) / 2)) by lia.
  symmetry. apply IH; lia.
Qed.

Lemma siftup_loop_fuel fuel heap endpos pos :
  endpos - pos ≤ fuel →
  siftup_loop lt fuel heap endpos pos = siftup_loop lt (endpos - pos) heap endpos pos.
Proof.
  remember (endpos - pos) as d eqn:Hd.
  revert fuel heap pos Hd. induction (lt_wf d) as [d _ IH]. intros fuel heap pos -> Hfuel.
  destruct fuel as [|fuel], (endpos - pos) as [|d] eqn:Hd; cbn [siftup_loop];
    try done; try lia.
  { by case_bool_decide; [lia|]. }
  case_bool_decide as Hlt; [|done].
  pose proof (smaller_child_range heap endpos _ Hlt) as Hrange.
  destruct (heap !! _); [|done].
  rewrite (IH (endpos - smaller_child lt heap endpos (2 * pos + 1))) by lia.
  symmetry. apply IH; lia.
Qed.

End heapq_facts.

(** ** The tree of [build_huffman_tree] *)

Section tree_facts.
Context {A : Type} `{EqDecision A}.
Implicit Types (node : Node A) (heap : list (Node A)) (freq_table : list (A * Z)).

Lemma merge_loop_spec fuel heap :
  Forall full_tree heap →
  Forall full_tree (merge_loop fuel heap) ∧
  merge_loop fuel heap ≫= leaves ≡ₚ heap ≫= leaves ∧
  (length heap ≤ fuel → heap ≠ [] → length (merge_loop fuel heap) = 1).
Proof.
  revert heap. induction fuel as [|fuel IH]; intros heap Hfull; cbn [merge_loop].
  { split_and!; [done..|]. destruct heap; simpl; [done|lia]. }
  case_bool_decide as Hlen.
  2:{ split_and!; [done..|]. destruct heap as [|? [|]]; simpl in *; [done..|lia]. }
  destruct (heappop Node_lt heap) as [[l heap1]|] eqn:Hpop1.
  2:{ destruct (heappop_is_Some Node_lt heap) as [? ?]; [|congruence].
      intros ->. simpl in Hlen. lia. }
  apply heappop_perm in Hpop1.
  destruct (heappop Node_lt heap1) as [[r heap2]|] eqn:Hpop2.
  2:{ destruct (heappop_is_Some Node_lt heap1) as [? ?]; [|congruence].
      apply Permutation_length in Hpop1. destruct heap1; simpl in *; [lia|done]. }
  apply heappop_perm in Hpop2.
  set (merged := mkNode None (freq l + freq r)%Z (Some l) (Some r)).
  pose proof (heappush_perm Node_lt heap2 merged) as Hpush.
  assert (heap ≡ₚ l :: r :: heap2) as Hheap by (by rewrite <- Hpop1, <- Hpop2).
  rewrite Hheap in Hfull. apply Forall_cons in Hfull as [Hl Hfull].
  apply Forall_cons in Hfull as [Hr Hfull].
  destruct (IH (heappush Node_lt heap2 merged)) as (IH1 & IH2 & IH3).
  { rewrite Hpush. constructor; [by constructor|done]. }
  split_and!; [done| |].
  - rewrite IH2, Hpush, Hheap. simpl. by rewrite (assoc_L (++)).
  - intros Hfuel _. apply IH3.
    + apply Permutation_length in Hpush, Hheap. simpl in *. lia.
    + intros Hnil. apply Permutation_length in Hpush. rewrite Hnil in Hpush. done.
Qed.

Lemma build_huffman_tree_empty : build_huffman_tree (A:=A) [] = None.
Proof. done. Qed.

Lemma build_huffman_tree_single (c : A) (f : Z) :
  build_huffman_tree [(c, f)] = Some (mkNode (Some c) f None None).
Proof. done. Qed.

Lemma build_huffman_tree_spec freq_table :
  freq_table ≠ [] →
  ∃ root, build_huffman_tree freq_table = Some root ∧ full_tree root ∧
          leaves root ≡ₚ freq_table.*1.
Proof.
  intros Hne. unfold build_huffman_tree.
  set (heap0 := (λ '(char, freq), mkNode (Some char) freq None None) <$> freq_table).
  pose proof (heapify_perm Node_lt heap0) as Hperm. cbv zeta.
  assert (Forall full_tree heap0) as Hfull0.
  { apply Forall_fmap, Forall_true. intros [c f]. constructor. }
  assert (heap0 ≫= leaves = freq_table.*1) as Hleaves0.
  { subst heap0. clear. induction freq_table as [|[c f] ? IH]; simpl; [done|]. by f_equal. }
  assert (heapify Node_lt heap0 ≠ []) as Hne0.
  { intros Hnil. apply Permutation_length in Hperm. rewrite Hnil in Hperm.
    subst heap0. rewrite length_fmap in Hperm. by destruct freq_table. }
  destruct (merge_loop_spec (length (heapify Node_lt heap0)) (heapify Node_lt heap0))
    as (Hfull & Hleaves & Hlen); [by rewrite Hperm|].
  specialize (Hlen (le_n _) Hne0).
  destruct (merge_loop _ _) as [|root [|]] eqn:Hrun; simpl in Hlen; try lia.
  exists root. split_and!; [done|by apply Forall_cons in Hfull as [? _]|].
  rewrite <- Hleaves0, <- Hperm, <- Hleaves. simpl. by rewrite (right_id_L [] (++)).
Qed.

End tree_facts.

(** ** The frequency table *)

Section frequency_facts.
Context {A : Type} `{EqDecision A}.
Implicit Types (text : list A) (d : list (A * Z)).

Lemma count_symbol_keys d c :
  (count_symbol d c).*1 = if decide (c ∈ d.*1) then d.*1 else d.*1 ++ [c].
Proof.
  induction d as [|[k v] d IH]; csimpl; [done|].
  destruct (decide (k = c)) as [->|Hne]; csimpl.
  - rewrite decide_True; [done|]. apply elem_of_cons; by left.
  - rewrite IH. destruct (decide (c ∈ d.*1)) as [Hin|Hnin].
    + rewrite decide_True; [done|]. apply elem_of_cons; by right.
    + rewrite decide_False; [done|]. rewrite elem_of_cons. intros [?|?]; done.
Qed.

Lemma build_frequency_table_snoc text c :
  build_frequency_table (text ++ [c]) = count_symbol (build_frequency_table text) c.
Proof. unfold build_frequency_table. by rewrite foldl_app. Qed.

Lemma build_frequency_table_elem_of text c :
  c ∈ (build_frequency_table text).*1 ↔ c ∈ text.
Proof.
  revert c. induction text as [|x text IH] using rev_ind; intros c; [done|].
  rewrite build_frequency_table_snoc, count_symbol_keys.
  destruct (decide (x ∈ _)) as [Hin|Hnin];
    rewrite ?elem_of_app, ?list_elem_of_singleton, IH; [|done].
  apply IH in Hin. split; [by left|]. by intros [?| ->].
Qed.

Lemma build_frequency_table_NoDup text : NoDup (build_frequency_table text).*1.
Proof.
  induction text as [|x text IH] using rev_ind; [constructor|].
  rewrite build_frequency_table_snoc, count_symbol_keys.
  destruct (decide (x ∈ _)) as [Hin|Hnin]; [done|].
  apply NoDup_app. split_and!; [done| |apply NoDup_singleton].
  intros y Hy ->%list_elem_of_singleton. done.
Qed.

(** The keys come in the order of first occurrence in the text. *)
Lemma build_frequency_table_order text :
  (build_frequency_table text).*1 = reverse (remove_dups (reverse text)).
Proof.
  induction text as [|x text IH] using rev_ind; [done|].
  rewrite build_frequency_table_snoc, count_symbol_keys, reverse_snoc. csimpl.
  destruct (decide (x ∈ _)) as [Hin|Hnin];
    rewrite build_frequency_table_elem_of, <- elem_of_reverse in *;
    destruct (decide_rel elem_of x (reverse text)); try done.
  by rewrite reverse_cons, IH.
Qed.

Lemma build_frequency_table_nonempty text : text ≠ [] → build_frequency_table text ≠ [].
Proof.
  destruct text as [|x text]; [done|]. intros _ Hnil.
  assert (x ∈ (build_frequency_table (x :: text)).*1) as Hin.
  { apply build_frequency_table_elem_of, elem_of_cons. by left. }
  rewrite Hnil in Hin. by apply elem_of_nil in Hin.
Qed.

Lemma build_frequency_table_replicate (c : A) n :
  build_frequency_table (replicate (S n) c) = [(c, Z.of_nat (S n))].
Proof.
  unfold build_frequency_table. csimpl.
  assert (∀ m k, foldl count_symbol [(c, k)] (replicate m c) = [(c, (k + Z.of_nat m)%Z)]) as Hgen.
  { induction m as [|m IH]; intros k; csimpl.
    - by rewrite Z.add_0_r.
    - rewrite decide_True by done. rewrite IH. do 2 f_equal. lia. }
  rewrite Hgen. do 2 f_equal. lia.
Qed.

End frequency_facts.

(** ** The code table *)

Section code_facts.
Context {A : Type} `{EqDecision A}.
Implicit Types (node root : Node A) (code_table : list (A * bits)).

Lemma dict_set_fresh {V} (d : list (A * V)) k v :
  k ∉ d.*1 → dict_set d k v = d ++ [(k, v)].
Proof.
  induction d as [|[k' v'] d IH]; csimpl; [done|].
  rewrite not_elem_of_cons. intros [Hne Hnin].
  rewrite decide_False by done. by rewrite IH.
Qed.

Lemma foldl_dict_set_fresh {V} (d l : list (A * V)) :
  NoDup (d ++ l).*1 → foldl (λ t '(k, v), dict_set t k v) d l = d ++ l.
Proof.
  revert d. induction l as [|[k v] l IH]; intros d Hnd; csimpl.
  - by rewrite (right_id_L [] (++)).
  - rewrite (cons_middle _ d l), (assoc_L (++)) in Hnd |- *.
    rewrite dict_set_fresh; [by apply IH|].
    rewrite !fmap_app in Hnd. apply NoDup_app in Hnd as [Hnd _].
    apply NoDup_app in Hnd as (_ & Hnin & _).
    intros Hin. apply (Hnin k Hin). csimpl. apply list_elem_of_singleton. done.
Qed.

Lemma dict_get_Some {V} (d : list (A * V)) k v :
  NoDup d.*1 → dict_get d k = Some v ↔ (k, v) ∈ d.
Proof.
  induction d as [|[k' v'] d IH]; csimpl; intros Hnd.
  - split; [done|]. by intros ?%elem_of_nil.
  - apply NoDup_cons in Hnd as [Hnin Hnd]. rewrite elem_of_cons.
    destruct (decide (k' = k)) as [->|Hne].
    + split; [intros [= ->]; by left|]. intros [[= ->]|Hin]; [done|].
      destruct Hnin. apply list_elem_of_fmap. by exists (k, v).
    + rewrite IH by done. split; [by right|]. intros [[= -> ->]|]; done.
Qed.

Lemma fmap_cons_bit_keys b (l : list (A * bits)) :
  (prod_map id (cons b) <$> l).*1 = l.*1.
Proof. rewrite <- list_fmap_compose. apply list_fmap_ext. by intros ? []. Qed.

Lemma paths_keys node : full_tree node → (paths node).*1 = leaves node.
Proof.
  induction 1 as [c f|f l r _ IHl _ IHr]; csimpl; [done|].
  by rewrite fmap_app, !fmap_cons_bit_keys, IHl, IHr.
Qed.

Lemma codes_of_merged f (l r : Node A) current_code :
  codes_of (mkNode None f (Some l) (Some r)) current_code =
  codes_of l (current_code ++ [zero]) ++ codes_of r (current_code ++ [one]).
Proof.
  unfold codes_of. csimpl. rewrite fmap_app, <- !list_fmap_compose.
  f_equal; apply list_fmap_ext; intros ? [c p] _; unfold leaf_code; simpl;
    by rewrite <- (assoc_L (++)).
Qed.

Lemma generate_codes_node_foldl node current_code code_table :
  full_tree node →
  generate_codes_node node current_code code_table =
  foldl (λ t '(k, v), dict_set t k v) code_table (codes_of node current_code).
Proof.
  intros Hfull. revert current_code code_table.
  induction Hfull as [c f|f l r _ IHl _ IHr]; intros current_code code_table.
  - unfold codes_of, leaf_code. simpl. rewrite (right_id_L [] (++)).
    by destruct current_code.
  - rewrite codes_of_merged, foldl_app. simpl. by rewrite IHl, IHr.
Qed.

Lemma codes_of_keys node current_code :
  full_tree node → (codes_of node current_code).*1 = leaves node.
Proof.
  intros Hfull. rewrite <- paths_keys by done. unfold codes_of.
  rewrite <- list_fmap_compose. apply list_fmap_ext. by intros ? [].
Qed.

(** With distinct symbols at the leaves, every assignment of
    [generate_codes] adds a new key. *)
Lemma generate_codes_root root :
  full_tree root → NoDup (leaves root) →
  generate_codes (Some root) [] [] = codes_of root [].
Proof.
  intros Hfull Hnd. simpl. rewrite generate_codes_node_foldl by done.
  apply foldl_dict_set_fresh. simpl. by rewrite codes_of_keys.
Qed.

Lemma paths_merged_nonempty f (l r : Node A) c p :
  (c, p) ∈ paths (mkNode None f (Some l) (Some r)) → p ≠ [].
Proof.
  csimpl. rewrite elem_of_app, !list_elem_of_fmap.
  intros [([? ?] & [= _ ->] & _)|([? ?] & [= _ ->] & _)]; done.
Qed.

Lemma codes_of_merged_root f (l r : Node A) :
  codes_of (mkNode None f (Some l) (Some r)) [] = paths (mkNode None f (Some l) (Some r)).
Proof.
  unfold codes_of. rewrite <- (list_fmap_id (paths _)) at 2.
  apply Forall_fmap_ext_1, Forall_forall. intros [c p] Hin.
  apply paths_merged_nonempty in Hin. unfold leaf_code. simpl. by destruct p.
Qed.

(** The path to a leaf is not the beginning of the path to another
    leaf. *)
Lemma paths_prefix_free node c1 p1 c2 p2 :
  full_tree node → (c1, p1) ∈ paths node → (c2, p2) ∈ paths node →
  p1 `prefix_of` p2 → NoDup (leaves node) → c1 = c2.
Proof.
  intros Hfull. revert p1 p2.
  induction Hfull as [c f|f l r _ IHl _ IHr]; intros p1 p2; csimpl.
  { by intros [= -> _]%list_elem_of_singleton [= -> _]%list_elem_of_singleton. }
  rewrite !elem_of_app, !list_elem_of_fmap.
  intros [([? q1] & [= -> ->] & Hin1)|([? q1] & [= -> ->] & Hin1)]
         [([? q2] & [= -> ->] & Hin2)|([? q2] & [= -> ->] & Hin2)]
         Hpre [Hndl [_ Hndr]]%NoDup_app.
  - apply (IHl q1 q2); [done..| |done]. by eapply (prefix_cons_inv_2 zero zero).
  - by apply prefix_cons_inv_1 in Hpre.
  - by apply prefix_cons_inv_1 in Hpre.
  - apply (IHr q1 q2); [done..| |done]. by eapply (prefix_cons_inv_2 one one).
Qed.

(** The tree and the code table of a frequency table with distinct keys
    (a [dict]). *)
Lemma code_table_of_freq_table (freq_table : list (A * Z)) :
  freq_table ≠ [] → NoDup freq_table.*1 →
  ∃ root, build_huffman_tree freq_table = Some root ∧ full_tree root ∧
          leaves root ≡ₚ freq_table.*1 ∧ NoDup (leaves root) ∧
          generate_codes (Some root) [] [] = codes_of root [].
Proof.
  intros Hne Hnd. destruct (build_huffman_tree_spec freq_table Hne) as (root & Hroot & Hfull & Hperm).
  exists root. assert (NoDup (leaves root)) by (by rewrite Hperm).
  split_and!; [done..|]. by apply generate_codes_root.
Qed.

Lemma full_tree_leaves_nonempty node : full_tree node → leaves node ≠ [].
Proof.
  induction 1 as [c f|f l r _ IHl _ IHr]; csimpl; [done|].
  by intros [? _]%app_eq_nil.
Qed.

(** A tree with two leaves or more has a merged node at its root. *)
Lemma full_tree_two_leaves node :
  full_tree node → 1 < length (leaves node) →
  ∃ f l r, node = mkNode None f (Some l) (Some r) ∧ full_tree l ∧ full_tree r.
Proof. destruct 1; csimpl; [lia|]. intros _. eauto 10. Qed.

End code_facts.

(** ** The decoding walk *)

Section decode_facts.
Context {A : Type} `{EqDecision A}.
Implicit Types (node : Node A) (root : option (Node A)) (text : list A).

(** From a merged node, the bits of the path to a leaf emit the symbol
    of the leaf and bring the walk back to the root. *)
Lemma decode_loop_path root node c p rest decoded_text :
  full_tree node → (c, p) ∈ paths node → p ≠ [] →
  decode_loop root (Some node) (p ++ rest) decoded_text =
  decode_loop root root rest (decoded_text ++ [c]).
Proof.
  intros Hfull. revert p.
  induction Hfull as [c' f|f l r Hl IHl Hr IHr]; intros p; csimpl.
  { by intros [= -> ->]%list_elem_of_singleton. }
  rewrite elem_of_app, !list_elem_of_fmap.
  intros [([? q] & [= -> ->] & Hin)|([? q] & [= -> ->] & Hin)] _; simpl.
  - destruct Hl as [c' f'|f' l' r' Hl' Hr'].
    + csimpl in *. by apply list_elem_of_singleton in Hin as [= -> ->].
    + cbn [char]. apply IHl; [done|]. by eapply paths_merged_nonempty.
  - destruct Hr as [c' f'|f' l' r' Hl' Hr'].
    + csimpl in *. by apply list_elem_of_singleton in Hin as [= -> ->].
    + cbn [char]. apply IHr; [done|]. by eapply paths_merged_nonempty.
Qed.

(** Bits that stop inside a path emit nothing and raise nothing. *)
Lemma decode_loop_partial root node c p q decoded_text :
  full_tree node → (c, p) ∈ paths node → q `prefix_of` p → q ≠ p →
  decode_loop root (Some node) q decoded_text = inr decoded_text.
Proof.
  intros Hfull. revert p q.
  induction Hfull as [c' f|f l r Hl IHl Hr IHr]; intros p q; csimpl.
  { intros [= -> ->]%list_elem_of_singleton Hpre Hne.
    by apply prefix_nil_inv in Hpre. }
  rewrite elem_of_app, !list_elem_of_fmap.
  intros [([? p'] & [= -> ->] & Hin)|([? p'] & [= -> ->] & Hin)] Hpre Hne;
    (destruct q as [|b q]; [done|]);
    pose proof (prefix_cons_inv_1 _ _ _ _ Hpre) as ->;
    apply prefix_cons_inv_2 in Hpre; simpl.
  - destruct Hl as [c' f'|f' l' r' Hl' Hr'].
    + csimpl in *. apply list_elem_of_singleton in Hin as [= -> ->].
      apply prefix_nil_inv in Hpre as ->. done.
    + cbn [char]. apply (IHl p'); [done..|congruence].
  - destruct Hr as [c' f'|f' l' r' Hl' Hr'].
    + csimpl in *. apply list_elem_of_singleton in Hin as [= -> ->].
      apply prefix_nil_inv in Hpre as ->. done.
    + cbn [char]. apply (IHr p'); [done..|congruence].
Qed.

(** Decoding the codes of a text gives the text back, whatever follows. *)
Lemma decode_loop_codes f l r text codes rest decoded_text :
  let node := mkNode None f (Some l) (Some r) in
  full_tree node →
  Forall2 (λ c p, (c, p) ∈ paths node) text codes →
  decode_loop (Some node) (Some node) (concat codes ++ rest) decoded_text =
  decode_loop (Some node) (Some node) rest (decoded_text ++ text).
Proof.
  intros node Hfull Hcodes. revert decoded_text.
  induction Hcodes as [|c p text codes Hin _ IH]; intros decoded_text; simpl.
  { by rewrite (right_id_L [] (++)). }
  rewrite <- (assoc_L (++)), (decode_loop_path _ node c) by
    (done || by eapply paths_merged_nonempty).
  by rewrite IH, <- (assoc_L (++)).
Qed.

(** The first [m] bits of the codes of a text are the codes of the
    symbols before some position, then bits that stop inside the code of
    the symbol at that position. *)
Lemma take_concat_codes (R : A → bits → Prop) text codes m :
  Forall2 R text codes → m < length (concat codes) →
  ∃ text1 c text2 codes1 p q,
    text = text1 ++ c :: text2 ∧ Forall2 R text1 codes1 ∧ R c p ∧
    take m (concat codes) = concat codes1 ++ q ∧ q `prefix_of` p ∧ q ≠ p.
Proof.
  intros Hcodes. revert m.
  induction Hcodes as [|c p text codes Hc Hcodes IH]; intros m; simpl; [lia|].
  rewrite length_app. intros Hm.
  destruct (decide (m < length p)) as [Hlt|Hge].
  - exists [], c, text, [], p, (take m p). split_and!; [done|constructor|done| | |].
    + by rewrite take_app_le by lia.
    + apply prefix_take.
    + intros Heq. apply (f_equal length) in Heq. rewrite length_take in Heq. lia.
  - destruct (IH (m - length p)) as (text1 & c' & text2 & codes1 & p' & q & -> & H1 & Hc' & Htake & Hpre & Hne);
      [lia|].
    exists (c :: text1), c', text2, (p :: codes1), p', q.
    split_and!; [done|by constructor|done| |done|done].
    rewrite take_app_ge by lia. simpl. by rewrite Htake, (assoc_L (++)).
Qed.

End decode_facts.

(** ** Bit packing *)

Section packing_facts.
Implicit Types (s b : bits) (data : list Z).

Lemma pad_encoded_text_padding b :
  let p := (pad_encoded_text b).2 in
  (0 ≤ p ≤ 7)%Z ∧ ((Z.of_nat (length b) + p) mod 8 = 0)%Z ∧
  p = ((8 - Z.of_nat (length b) mod 8) mod 8)%Z.
Proof.
  unfold pad_encoded_text. cbn [snd].
  generalize (Z.of_nat (length b)). intros n.
  pose proof (Z.mod_pos_bound n 8).
  case_bool_decide as Heq.
  - assert (n mod 8 = 0)%Z as Hmod by lia. rewrite Hmod, Z.add_0_r. split_and!; (done || lia).
  - split_and!; [lia|lia| |].
    + pose proof (Z_div_mod_eq_full n 8) as Hn.
      replace (n + (8 - n mod 8))%Z with ((n / 8 + 1) * 8)%Z by lia.
      apply Z_mod_mult.
    + symmetry. apply Z.mod_small. lia.
Qed.

Lemma pad_encoded_text_padded b :
  (pad_encoded_text b).1 = b ++ replicate (Z.to_nat (pad_encoded_text b).2) zero.
Proof. done. Qed.

Lemma pad_encoded_text_length b :
  ∃ k, length (pad_encoded_text b).1 = 8 * k ∧
       8 * k = length b + Z.to_nat (pad_encoded_text b).2.
Proof.
  destruct (pad_encoded_text_padding b) as (Hrange & Hmod & _).
  rewrite pad_encoded_text_padded, length_app, length_replicate.
  apply Z.mod_divide in Hmod as [k Hk]; [|done].
  exists (Z.to_nat k). lia.
Qed.

Lemma remove_padding_app b p :
  (0 ≤ p)%Z → remove_padding (b ++ replicate (Z.to_nat p) zero) p = b.
Proof.
  intros Hp. unfold remove_padding. case_bool_decide.
  - rewrite length_app, length_replicate, Nat.add_sub. apply take_app_length.
  - replace p with 0%Z by lia. simpl. by rewrite (right_id_L [] (++)).
Qed.

(** Eight binary digits are read as a byte value, and [bin] and [rjust]
    write the same eight digits back. *)
Lemma byte_round_trip s :
  length s = 8 → Forall is_bit s →
  ∃ v, int2 s = Some v ∧ is_byte v ∧ rjust 8 zero (bin_tail v) = s.
Proof.
  intros Hlen Hbits.
  do 8 (destruct s as [|? s]; [done|]). destruct s; [|done].
  repeat match goal with
         | H : Forall _ (_ :: _) |- _ => apply Forall_cons in H as [[-> | ->] H]
         end;
    (eexists; split_and!; [reflexivity|unfold is_byte; lia|reflexivity]).
Qed.

Lemma bin_pos_length p : length (bin_pos p) = Pos.size_nat p.
Proof. induction p; simpl; rewrite ?length_app; simpl; lia. Qed.

Lemma size_nat_bound n p : (Z.pos p < 2 ^ Z.of_nat n)%Z → Pos.size_nat p ≤ n.
Proof.
  revert p. induction n as [|n IH]; intros p; [simpl; lia|].
  rewrite Nat2Z.inj_succ, Z.pow_succ_r by lia.
  destruct p as [p|p|]; simpl; [| |lia]; intros Hlt;
    apply le_n_S, IH; lia.
Qed.

Lemma byte_bits_length v : is_byte v → length (rjust 8 zero (bin_tail v)) = 8.
Proof.
  intros [Hge Hlt]. unfold rjust. rewrite length_app, length_replicate.
  destruct v as [|p|p]; simpl; [done| |lia].
  rewrite bin_pos_length. pose proof (size_nat_bound 8 p Hlt). lia.
Qed.

Lemma bit_string_of_length data :
  Forall is_byte data → length (bit_string_of data) = 8 * length data.
Proof.
  unfold bit_string_of. induction 1 as [|v data Hv _ IH]; csimpl; [done|].
  rewrite length_app, IH, byte_bits_length by done. lia.
Qed.

Lemma bit_string_of_app data1 data2 :
  bit_string_of (data1 ++ data2) = bit_string_of data1 ++ bit_string_of data2.
Proof. apply bind_app. Qed.

Lemma range8_add8 n : range8 (8 + n) = 0 :: (Nat.add 8 <$> range8 n).
Proof.
  unfold range8. replace (8 + n + 7) with (1 * 8 + (n + 7)) by lia.
  rewrite Nat.div_add_l by done. csimpl. f_equal.
  rewrite <- fmap_S_seq, <- !list_fmap_compose.
  apply list_fmap_ext. intros _ k _. simpl. lia.
Qed.

Lemma get_byte_array_chunk chunk s :
  length chunk = 8 →
  get_byte_array (chunk ++ s) =
  v ← int2 chunk; rest ← get_byte_array s; Some (v :: rest).
Proof.
  intros Hlen. unfold get_byte_array.
  rewrite length_app, Hlen, range8_add8. cbn [mapM mbind option_bind].
  rewrite drop_0, take_app_length' by done.
  destruct (int2 chunk) as [v|]; [|done]. cbn [mbind option_bind].
  assert (mapM (λ i, int2 (take 8 (drop i (chunk ++ s)))) (Nat.add 8 <$> range8 (length s))
          = mapM (λ i, int2 (take 8 (drop i s))) (range8 (length s))) as ->; [|done].
  generalize (range8 (length s)). intros idxs.
  induction idxs as [|i idxs IH]; [done|].
  rewrite fmap_cons. cbn [mapM]. rewrite IH.
  by rewrite <- Hlen, drop_app_add.
Qed.

(** A bit string of whole bytes is packed without error, and unpacking
    gives it back. *)
Lemma get_byte_array_round_trip k s :
  length s = 8 * k → Forall is_bit s →
  ∃ data, get_byte_array s = Some data ∧ bit_string_of data = s ∧
          length data = k ∧ Forall is_byte data.
Proof.
  revert s. induction k as [|k IH]; intros s Hlen Hbits.
  { destruct s; [|done]. by exists []. }
  rewrite <- (take_drop 8 s) in Hbits |- *.
  apply Forall_app in Hbits as [Hchunk Hrest].
  destruct (byte_round_trip (take 8 s)) as (v & Hv & Hbyte & Hback);
    [rewrite length_take; lia|done|].
  destruct (IH (drop 8 s)) as (data & Hdata & Hbits' & Hlen' & Hbytes);
    [rewrite length_drop; lia|done|].
  exists (v :: data). rewrite get_byte_array_chunk by (rewrite length_take; lia).
  rewrite Hv, Hdata. csimpl. split_and!; [done| |by f_equal|by constructor].
  unfold bit_string_of in *. csimpl. by rewrite Hback, Hbits'.
Qed.

Lemma int2_lt_256 s v : length s ≤ 8 → int2 s = Some v → is_byte v.
Proof.
  intros Hlen. unfold int2. destruct s as [|ch s]; [done|].
  generalize (ch :: s) Hlen. clear. intros s Hlen.
  assert (∀ acc bound, (0 ≤ acc < bound)%Z →
    foldl (λ acc ch, a ← acc; d ← digit2 ch; Some (2 * a + d)%Z) (Some acc) s = Some v →
    (0 ≤ v < bound * 2 ^ Z.of_nat (length s))%Z) as Hgen.
  { clear. induction s as [|ch s IH]; intros acc bound Hacc; cbn [foldl length].
    - intros [= ->]. simpl. lia.
    - rewrite Nat2Z.inj_succ, Z.pow_succ_r by lia.
      cbn [mbind option_bind]. unfold digit2.
      repeat case_decide; cbn [mbind option_bind].
      + intros Hv. apply (IH _ (2 * bound)%Z) in Hv; [|lia]. lia.
      + intros Hv. apply (IH _ (2 * bound)%Z) in Hv; [|lia]. lia.
      + intros Hv. exfalso. clear -Hv. induction s; simpl in *; [done|auto]. }
  intros Hv. apply (Hgen 0%Z 1%Z) in Hv; [|lia].
  assert (2 ^ Z.of_nat (length s) ≤ 2 ^ 8)%Z by (apply Z.pow_le_mono_r; lia).
  unfold is_byte. lia.
Qed.

(** Unpacking a payload that lost its last byte: the padding is cut
    from the bits that are left, so the last eight bits of the encoded
    text are gone. *)
Lemma remove_padding_truncated b data v :
  let padding := (pad_encoded_text b).2 in
  bit_string_of (data ++ [v]) = (pad_encoded_text b).1 →
  Forall is_byte (data ++ [v]) → data ≠ [] →
  8 < length b ∧
  remove_padding (bit_string_of data) padding = take (length b - 8) b.
Proof.
  intros padding Hback [Hbytes Hv]%Forall_app Hne.
  destruct (pad_encoded_text_padding b) as (Hrange & _). fold padding in Hrange.
  rewrite bit_string_of_app, pad_encoded_text_padded in Hback. fold padding in Hback.
  pose proof (bit_string_of_length data Hbytes) as Hlen.
  assert (length (bit_string_of [v]) = 8) as Hlen1.
  { by rewrite bit_string_of_length. }
  assert (length (bit_string_of data) + 8 = length b + Z.to_nat padding) as Hsum.
  { apply (f_equal length) in Hback.
    rewrite !length_app, length_replicate, Hlen1 in Hback. done. }
  assert (0 < length data) by (destruct data; simpl; [done|lia]).
  split; [lia|].
  assert (bit_string_of data = take (length (bit_string_of data)) (b ++ replicate (Z.to_nat padding) zero)) as Hdata.
  { rewrite <- Hback. by rewrite take_app_length. }
  unfold remove_padding. case_bool_decide.
  - rewrite Hdata at 2. rewrite take_take, take_app_le by lia. f_equal. lia.
  - rewrite Hdata. rewrite take_app_le by lia. f_equal. lia.
Qed.

End packing_facts.

(** ** The steps of [compress_file] *)

Section pipeline_facts.
Context {A : Type} `{EqDecision A}.
Implicit Types (node root : Node A) (text : list A).

Lemma paths_bits node c p : full_tree node → (c, p) ∈ paths node → Forall is_bit p.
Proof.
  intros Hfull. revert p.
  induction Hfull as [c' f|f l r _ IHl _ IHr]; intros p; csimpl.
  { by intros [= _ ->]%list_elem_of_singleton. }
  rewrite elem_of_app, !list_elem_of_fmap.
  intros [([? q] & [= -> ->] & Hin)|([? q] & [= -> ->] & Hin)];
    (constructor; [|by auto]); [by left|by right].
Qed.

Lemma codes_of_bits root c w :
  full_tree root → (c, w) ∈ codes_of root [] → Forall is_bit w ∧ w ≠ [].
Proof.
  intros Hfull. unfold codes_of. rewrite list_elem_of_fmap.
  intros ([? p] & [= -> ->] & Hin). apply paths_bits in Hin; [|done].
  unfold leaf_code. simpl. destruct p; [|done].
  split; [|done]. constructor; [by left|done].
Qed.

(** Every symbol of the text has a code: [encode_text] raises no
    [KeyError] and joins the codes of the symbols in order. *)
Lemma encode_text_codes root text :
  full_tree root → NoDup (leaves root) → (∀ c, c ∈ text → c ∈ leaves root) →
  ∃ codes, Forall2 (λ c w, (c, w) ∈ codes_of root []) text codes ∧
           encode_text text (codes_of root []) = Some (concat codes).
Proof.
  intros Hfull Hnd Hin.
  assert (NoDup (codes_of root []).*1) as Hkeys by (by rewrite codes_of_keys).
  assert (∃ codes, Forall2 (λ c w, (c, w) ∈ codes_of root []) text codes) as [codes Hcodes].
  { induction text as [|c text IH]; [by exists []|].
    destruct IH as [codes Hcodes]; [intros; apply Hin; by right|].
    assert (c ∈ (codes_of root []).*1) as ([c' w] & -> & Hw)%list_elem_of_fmap.
    { rewrite codes_of_keys by done. apply Hin. by left. }
    exists (w :: codes). by constructor. }
  exists codes. split; [done|]. unfold encode_text.
  assert (mapM (dict_get (codes_of root [])) text = Some codes) as ->; [|done].
  apply mapM_Some. eapply Forall2_impl; [done|]. intros c w Hw. by apply dict_get_Some.
Qed.

Lemma concat_codes_bits root text codes :
  full_tree root → Forall2 (λ c w, (c, w) ∈ codes_of root []) text codes →
  Forall is_bit (concat codes) ∧ length text ≤ length (concat codes).
Proof.
  intros Hfull. induction 1 as [|c w text codes Hw _ [IH1 IH2]]; simpl; [done|].
  apply codes_of_bits in Hw as [Hbits Hne]; [|done].
  split; [by apply Forall_app|]. rewrite length_app. destruct w; simpl; [done|lia].
Qed.

End pipeline_facts.

(** ** The container *)

Section container_facts.
Context {A : Type} `{EqDecision A}.
Context (json_dumps : Header A → list Z) (json_loads : list Z → option (LoadedHeader A)).
Context (big_endian : bool).
Implicit Types (text : list A) (file payload : list Z).

Lemma struct_unpack_pack n length_bytes :
  struct_pack_I big_endian n = Some length_bytes →
  length length_bytes = 4 ∧ struct_unpack_I big_endian length_bytes = n.
Proof.
  unfold struct_pack_I, struct_unpack_I. case_bool_decide as Hn; [|done].
  intros [= <-]. destruct big_endian; (split; [done|]); cbn;
    Z.to_euclidean_division_equations; lia.
Qed.

(** [decompress_file] in terms of the two parts of its input and of the
    header read from it. *)
Lemma decompress_file_loaded file header :
  4 ≤ length file →
  json_loads (header_bytes_of big_endian file) = Some header →
  decompress_file json_loads big_endian file =
  match payload_of big_endian file with
  | [] => Warning "Compressed file is empty!"
  | _ =>
      match build_huffman_tree_of (freq_value header) with
      | inl e => Raised e
      | inr huffman_tree =>
          match remove_padding_of (bit_string_of (payload_of big_endian file))
                  (padding_value header) with
          | inl e => Raised e
          | inr bit_string =>
              match decode_loop huffman_tree huffman_tree bit_string [] with
              | inl e => Raised e
              | inr decoded_text => Success decoded_text
              end
          end
      end
  end.
Proof.
  intros Hlen Hloads. unfold decompress_file, header_bytes_of, payload_of in *.
  rewrite bool_decide_false by (rewrite length_take; lia).
  by rewrite Hloads.
Qed.

(** The same for a header with a table of counts and an integer
    padding. *)
Lemma decompress_file_parts file header :
  4 ≤ length file →
  json_loads (header_bytes_of big_endian file) = Some (loaded header) →
  decompress_file json_loads big_endian file =
  match payload_of big_endian file with
  | [] => Warning "Compressed file is empty!"
  | _ =>
      let huffman_tree := build_huffman_tree (h_freq header) in
      match decode_loop huffman_tree huffman_tree
              (remove_padding (bit_string_of (payload_of big_endian file)) (h_padding header)) [] with
      | inl e => Raised e
      | inr decoded_text => Success decoded_text
      end
  end.
Proof.
  intros Hlen Hloads. by rewrite (decompress_file_loaded _ _ Hlen Hloads).
Qed.

(** The parts of a file made of a length field, the header it announces
    and a payload. *)
Lemma file_parts length_bytes header_bytes payload :
  struct_pack_I big_endian (Z.of_nat (length header_bytes)) = Some length_bytes →
  header_bytes_of big_endian (length_bytes ++ header_bytes ++ payload) = header_bytes ∧
  payload_of big_endian (length_bytes ++ header_bytes ++ payload) = payload ∧
  4 ≤ length (length_bytes ++ header_bytes ++ payload).
Proof.
  intros [Hlen Hunpack]%struct_unpack_pack. unfold header_bytes_of, payload_of.
  rewrite take_app_length', Hunpack, Nat2Z.id, drop_app_length' by done.
  rewrite take_app_length, drop_app_length, length_app. split_and!; [done..|lia].
Qed.

(** Reading a file made of a length field, the header it announces and a
    payload. *)
Lemma decompress_file_container length_bytes header_bytes payload header :
  struct_pack_I big_endian (Z.of_nat (length header_bytes)) = Some length_bytes →
  json_loads header_bytes = Some (loaded header) →
  decompress_file json_loads big_endian (length_bytes ++ header_bytes ++ payload) =
  match payload with
  | [] => Warning "Compressed file is empty!"
  | _ =>
      let huffman_tree := build_huffman_tree (h_freq header) in
      match decode_loop huffman_tree huffman_tree
              (remove_padding (bit_string_of payload) (h_padding header)) [] with
      | inl e => Raised e
      | inr decoded_text => Success decoded_text
      end
  end.
Proof.
  intros Hpack Hloads. destruct (file_parts _ _ payload Hpack) as (Hheader & Hpayload & Hlen).
  rewrite (decompress_file_parts _ header) by (by rewrite ?Hheader).
  by rewrite Hpayload.
Qed.

(** What [compress_file] has computed when it writes its output. *)
Lemma compress_file_Success text file :
  compress_file json_dumps big_endian text = Success file →
  ∃ root codes data length_bytes,
    let freq_table := build_frequency_table text in
    let padding := (pad_encoded_text (concat codes)).2 in
    let header_bytes := json_dumps (mkHeader freq_table padding) in
    text ≠ [] ∧
    build_huffman_tree freq_table = Some root ∧ full_tree root ∧
    NoDup (leaves root) ∧ leaves root ≡ₚ freq_table.*1 ∧
    Forall2 (λ c w, (c, w) ∈ codes_of root []) text codes ∧
    get_byte_array (pad_encoded_text (concat codes)).1 = Some data ∧
    bit_string_of data = (pad_encoded_text (concat codes)).1 ∧
    Forall is_byte data ∧ data ≠ [] ∧
    struct_pack_I big_endian (Z.of_nat (length header_bytes)) = Some length_bytes ∧
    file = length_bytes ++ header_bytes ++ data.
Proof.
  unfold compress_file. destruct text as [|c0 text0] eqn:Htext; [done|]. rewrite <- Htext.
  assert (text ≠ []) as Hne by (by rewrite Htext). clear Htext.
  destruct (code_table_of_freq_table (build_frequency_table text))
    as (root & Hroot & Hfull & Hperm & Hnd & Htable);
    [by apply build_frequency_table_nonempty|apply build_frequency_table_NoDup|].
  rewrite Hroot, Htable.
  destruct (encode_text_codes root text) as (codes & Hcodes & ->); [done..| |].
  { intros c Hc. rewrite Hperm. by apply build_frequency_table_elem_of. }
  destruct (concat_codes_bits root text codes) as [Hbits Hlong]; [done..|].
  destruct (pad_encoded_text (concat codes)) as [padded padding] eqn:Hpad.
  destruct (pad_encoded_text_length (concat codes)) as (k & Hk & _).
  pose proof (pad_encoded_text_padded (concat codes)) as Hpadded.
  rewrite Hpad in Hk, Hpadded. cbn [fst snd] in Hk, Hpadded.
  destruct (get_byte_array_round_trip k padded) as (data & Hdata & Hback & _ & Hbytes); [done| |].
  { rewrite Hpadded. apply Forall_app. split; [done|].
    apply Forall_replicate. by left. }
  rewrite Hdata.
  destruct (struct_pack_I _ _) as [length_bytes|] eqn:Hpack; [|done].
  intros [= <-]. exists root, codes, data, length_bytes. rewrite Hpad. cbn [fst snd].
  split_and!; try done.
  intros ->. rewrite Hpadded in Hback. apply (f_equal length) in Hback.
  rewrite length_app in Hback. simpl in Hback. destruct text; simpl in *; [done|lia].
Qed.

(** [compress_file] raises no exception: on a text with symbols it
    writes its output, unless the header is too long for the length
    field. *)
Lemma compress_file_outcome text :
  text ≠ [] →
  (∃ file, compress_file json_dumps big_endian text = Success file) ∨
  compress_file json_dumps big_endian text = Error "Could not write output file".
Proof.
  intros Hne. unfold compress_file. destruct text as [|c0 text0] eqn:Htext; [done|].
  rewrite <- Htext in Hne |- *. clear Htext.
  destruct (code_table_of_freq_table (build_frequency_table text))
    as (root & Hroot & Hfull & Hperm & Hnd & Htable);
    [by apply build_frequency_table_nonempty|apply build_frequency_table_NoDup|].
  rewrite Hroot, Htable.
  destruct (encode_text_codes root text) as (codes & Hcodes & ->); [done..| |].
  { intros c Hc. rewrite Hperm. by apply build_frequency_table_elem_of. }
  destruct (concat_codes_bits root text codes) as [Hbits _]; [done..|].
  destruct (pad_encoded_text (concat codes)) as [padded padding] eqn:Hpad.
  destruct (pad_encoded_text_length (concat codes)) as (k & Hk & _).
  pose proof (pad_encoded_text_padded (concat codes)) as Hpadded.
  rewrite Hpad in Hk, Hpadded. cbn [fst snd] in Hk, Hpadded.
  destruct (get_byte_array_round_trip k padded) as (data & -> & _); [done| |].
  { rewrite Hpadded. apply Forall_app. split; [done|].
    apply Forall_replicate. by left. }
  destruct (struct_pack_I _ _); eauto.
Qed.

(** Decompressing what [compress_file] wrote walks the tree of the
    compression over the codes of the text. *)
Lemma decompress_compressed text file :
  header_round_trip json_dumps json_loads (build_frequency_table text) →
  compress_file json_dumps big_endian text = Success file →
  ∃ root codes,
    build_huffman_tree (build_frequency_table text) = Some root ∧ full_tree root ∧
    NoDup (leaves root) ∧ leaves root ≡ₚ (build_frequency_table text).*1 ∧
    Forall2 (λ c w, (c, w) ∈ codes_of root []) text codes ∧
    decompress_file json_loads big_endian file =
    match decode_loop (Some root) (Some root) (concat codes) [] with
    | inl e => Raised e
    | inr decoded_text => Success decoded_text
    end.
Proof.
  intros Hjson (root & codes & data & length_bytes & Hne & Hroot & Hfull & Hnd & Hperm &
    Hcodes & Hdata & Hback & Hbytes & Hdata_ne & Hpack & ->)%compress_file_Success.
  exists root, codes. split_and!; [done..|].
  destruct (pad_encoded_text_padding (concat codes)) as (Hrange & _).
  rewrite (decompress_file_container _ _ _ _ Hpack (Hjson _ Hrange)). cbn [h_freq h_padding].
  destruct data as [|v data]; [done|].
  rewrite Hroot, Hback, pad_encoded_text_padded, remove_padding_app by lia. done.
Qed.

End container_facts.

(** * The properties of the specification *)

(** ** Bit packer and padding *)

(** C4. Bit-packer decoding inverts encoding: for every bit string [b],
    [pad_encoded_text] followed by [get_byte_array] raises nothing, and
    expanding the bytes to eight bits each and removing the last
    [paddingBits] bits gives [b] back; the padding lies in [0, 7]. *)
Theorem bit_packer_round_trip (b : bits) :
  Forall is_bit b →
  ∃ data,
    get_byte_array (pad_encoded_text b).1 = Some data ∧
    remove_padding (bit_string_of data) (pad_encoded_text b).2 = b ∧
    (0 ≤ (pad_encoded_text b).2 ≤ 7)%Z.
Proof.
  intros Hbits.
  destruct (pad_encoded_text_padding b) as (Hrange & _).
  destruct (pad_encoded_text_length b) as (k & Hk & _).
  destruct (get_byte_array_round_trip k (pad_encoded_text b).1) as (data & Hdata & Hback & _);
    [done| |].
  { rewrite pad_encoded_text_padded. apply Forall_app. split; [done|].
    apply Forall_replicate. by left. }
  exists data. split_and!; [done| |lia..].
  rewrite Hback, pad_encoded_text_padded. apply remove_padding_app. lia.
Qed.

Lemma bit_packer_round_trip_witness :
  let b := [zero; zero; zero; one; one; one; one; one; zero] in
  ∃ data,
    get_byte_array (pad_encoded_text b).1 = Some data ∧
    remove_padding (bit_string_of data) (pad_encoded_text b).2 = b ∧
    (0 ≤ (pad_encoded_text b).2 ≤ 7)%Z.
Proof.
  apply bit_packer_round_trip.
  repeat (constructor; [(by left) || (by right)|]). constructor.
Defined.

(** C5. The padding that [pad_encoded_text] returns lies in [0, 7],
    completes the encoded length to a multiple of eight, and equals
    [(8 - encodedBitLength mod 8) mod 8]; the padded text has that many
    more bits. *)
Theorem padding_bound (encoded_text : bits) :
  let encoded_length := Z.of_nat (length encoded_text) in
  let '(padded_encoded_text, extra_padding) := pad_encoded_text encoded_text in
  (0 ≤ extra_padding ≤ 7)%Z ∧
  ((encoded_length + extra_padding) mod 8 = 0)%Z ∧
  extra_padding = ((8 - encoded_length mod 8) mod 8)%Z ∧
  Z.of_nat (length padded_encoded_text) = (encoded_length + extra_padding)%Z.
Proof.
  destruct (pad_encoded_text_padding encoded_text) as (Hrange & Hmod & Heq).
  pose proof (pad_encoded_text_padded encoded_text) as Hpadded.
  destruct (pad_encoded_text encoded_text) as [padded extra_padding].
  cbn [fst snd] in *. split_and!; [lia|lia|done|done|].
  rewrite Hpadded, length_app, length_replicate. lia.
Qed.

(** ** Code table *)

Section code_table_properties.
Context {A : Type} `{EqDecision A}.

(** C6. The code table generated from the Huffman tree of a non-empty
    frequency map (a [dict]: distinct keys) is prefix-free, no code
    being the beginning of the code of another symbol, and its keys are
    exactly the symbols of the frequency map. *)
Theorem code_table_prefix_free (freq_table : list (A * Z)) :
  freq_table ≠ [] → NoDup freq_table.*1 →
  let code_table := generate_codes (build_huffman_tree freq_table) [] [] in
  (∀ c1 c2 w1 w2,
     c1 ≠ c2 → dict_get code_table c1 = Some w1 → dict_get code_table c2 = Some w2 →
     ¬ w1 `prefix_of` w2) ∧
  (∀ c, c ∈ code_table.*1 ↔ c ∈ freq_table.*1).
Proof.
  intros Hne Hnd code_table. subst code_table.
  destruct (code_table_of_freq_table freq_table Hne Hnd)
    as (root & -> & Hfull & Hperm & Hleaves & ->).
  assert (NoDup (codes_of root []).*1) as Hkeys by (by rewrite codes_of_keys).
  split.
  - intros c1 c2 w1 w2 Hc H1%dict_get_Some H2%dict_get_Some Hpre; [|done..].
    destruct Hfull as [c f|f l r Hl Hr].
    + apply list_elem_of_singleton in H1 as [= -> _].
      by apply list_elem_of_singleton in H2 as [= -> _].
    + rewrite codes_of_merged_root in H1, H2.
      apply Hc.
      eapply (paths_prefix_free (mkNode None f (Some l) (Some r)));
        [by constructor|done..].
  - intros c. by rewrite codes_of_keys, Hperm.
Qed.

End code_table_properties.

Lemma code_table_prefix_free_witness :
  let freq_table := [("a"%char, 3%Z); ("b"%char, 2%Z); ("c"%char, 1%Z)] in
  let code_table := generate_codes (build_huffman_tree freq_table) [] [] in
  (∀ c1 c2 w1 w2,
     c1 ≠ c2 → dict_get code_table c1 = Some w1 → dict_get code_table c2 = Some w2 →
     ¬ w1 `prefix_of` w2) ∧
  (∀ c, c ∈ code_table.*1 ↔ c ∈ freq_table.*1).
Proof.
  apply (code_table_prefix_free [("a"%char, 3%Z); ("b"%char, 2%Z); ("c"%char, 1%Z)]).
  - discriminate.
  - apply (bool_decide_unpack _). vm_compute. exact I.
Defined.

(** ** The entry points *)

Section entry_point_properties.
Context {A : Type} `{EqDecision A}.
Context (json_dumps : Header A → list Z) (json_loads : list Z → option (LoadedHeader A)).
Context (big_endian : bool).
Implicit Types (text : list A) (file : list Z).

Lemma two_symbols_merged_root text root a b :
  a ∈ text → b ∈ text → a ≠ b →
  full_tree root → leaves root ≡ₚ (build_frequency_table text).*1 →
  ∃ f l r, root = mkNode None f (Some l) (Some r).
Proof.
  intros Ha%build_frequency_table_elem_of Hb%build_frequency_table_elem_of Hab Hfull Hperm.
  rewrite <- Hperm in Ha, Hb.
  destruct (full_tree_two_leaves root Hfull) as (f & l & r & -> & _); [|eauto].
  destruct (leaves root) as [|x [|y ?]]; simpl; [by apply elem_of_nil in Ha| |lia].
  apply list_elem_of_singleton in Ha, Hb. congruence.
Qed.

(** X18.  Round trip on a text with two distinct symbols or more: the
    decompression of what [compress_file] wrote gives the text back. *)
Theorem compress_decompress_round_trip text file a b :
  a ∈ text → b ∈ text → a ≠ b →
  header_round_trip json_dumps json_loads (build_frequency_table text) →
  compress_file json_dumps big_endian text = Success file →
  decompress_file json_loads big_endian file = Success text.
Proof.
  intros Ha Hb Hab Hjson Hfile.
  destruct (decompress_compressed _ _ _ _ _ Hjson Hfile)
    as (root & codes & _ & Hfull & _ & Hperm & Hcodes & ->).
  destruct (two_symbols_merged_root text root a b) as (f & l & r & ->); [done..|].
  rewrite codes_of_merged_root in Hcodes.
  pose proof (decode_loop_codes f l r text codes [] [] Hfull Hcodes) as Hdecode.
  rewrite (right_id_L [] (++)) in Hdecode. by rewrite Hdecode.
Qed.

(** The codes of a text over the table of a single leaf. *)
Lemma single_leaf_codes (c : A) f text codes :
  Forall2 (λ c' w, (c', w) ∈ codes_of (mkNode (Some c) f None None) []) text codes →
  text = replicate (length text) c ∧ concat codes = replicate (length text) zero.
Proof.
  induction 1 as [|c' w text codes Hw _ [IH1 IH2]]; [done|].
  apply list_elem_of_singleton in Hw as [= -> ->]. simpl. by rewrite <- IH1, IH2.
Qed.

(** X19.  Round trip on a text of one repeated symbol: the first step of the
    walk leaves the only leaf for a child that is [None]. *)
Lemma compress_decompress_single_symbol (c : A) n file :
  header_round_trip json_dumps json_loads [(c, Z.of_nat (S n))] →
  compress_file json_dumps big_endian (replicate (S n) c) = Success file →
  decompress_file json_loads big_endian file = Raised AttributeError.
Proof.
  intros Hjson Hfile. rewrite <- build_frequency_table_replicate in Hjson.
  destruct (decompress_compressed _ _ _ _ _ Hjson Hfile)
    as (root & codes & Hroot & _ & _ & _ & Hcodes & ->).
  rewrite build_frequency_table_replicate, build_huffman_tree_single in Hroot.
  injection Hroot as <-. apply single_leaf_codes in Hcodes as [_ ->].
  by rewrite length_replicate.
Qed.

(** C2, as the code has it.  [decompress_file] has no check for a walk
    that ends inside a path.  For a text with two distinct symbols or
    more, decompressing the container with its payload cut by one byte
    reports no corruption: a payload of one byte leaves an empty payload
    and the warning of the empty file; a longer payload is decoded with
    success into a proper prefix of the text. *)
Theorem truncated_payload_outcome text file a b :
  a ∈ text → b ∈ text → a ≠ b →
  header_round_trip json_dumps json_loads (build_frequency_table text) →
  compress_file json_dumps big_endian text = Success file →
  (length (payload_of big_endian file) = 1 →
   decompress_file json_loads big_endian (removelast file) =
   Warning "Compressed file is empty!") ∧
  (1 < length (payload_of big_endian file) →
   ∃ decoded_text,
     decompress_file json_loads big_endian (removelast file) = Success decoded_text ∧
     decoded_text `prefix_of` text ∧ decoded_text ≠ text).
Proof.
  intros Ha Hb Hab Hjson
    (root & codes & data & length_bytes & Hne & Hroot & Hfull & Hnd & Hperm &
     Hcodes & Hdata & Hback & Hbytes & Hdata_ne & Hpack & ->)%compress_file_Success.
  destruct (file_parts _ _ _ data Hpack) as (_ & -> & _).
  destruct (pad_encoded_text_padding (concat codes)) as (Hrange & _).
  destruct data as [|v data _] using rev_ind; [done|]. clear Hdata_ne.
  rewrite !(assoc_L (++)), removelast_last, <- (assoc_L (++)).
  rewrite (decompress_file_container _ _ _ _ _ _ Hpack (Hjson _ Hrange)).
  cbn [h_freq h_padding]. rewrite length_app. cbn [length].
  split; intros Hlen.
  { destruct data; simpl in *; [done|lia]. }
  destruct (remove_padding_truncated (concat codes) data v) as [Hlong ->];
    [done|done|destruct data; simpl in *; [lia|done]|].
  destruct data as [|v' data]; [simpl in *; lia|]. rewrite Hroot.
  destruct (two_symbols_merged_root text root a b) as (f & l & r & ->); [done..|].
  rewrite codes_of_merged_root in Hcodes.
  destruct (take_concat_codes _ text codes (length (concat codes) - 8) Hcodes)
    as (text1 & c & text2 & codes1 & p & q & -> & Hcodes1 & Hc & -> & Hpre & Hq); [lia|].
  rewrite (decode_loop_codes f l r text1 codes1 q []) by done.
  rewrite (decode_loop_partial _ _ c p q) by done.
  exists text1. split_and!; [done|by apply prefix_app_r|].
  intros Heq. apply (f_equal length) in Heq. rewrite length_app in Heq. simpl in Heq. lia.
Qed.

(** C3. For a text of one repeated symbol, the code table gives the
    symbol the code ["0"], and the payload that [compress_file] writes,
    with the padding of the header removed, is a run of zero bits as
    long as the text. *)
Theorem single_symbol_code_and_payload (c : A) n file :
  0 < n →
  compress_file json_dumps big_endian (replicate n c) = Success file →
  generate_codes (build_huffman_tree (build_frequency_table (replicate n c))) [] [] =
    [(c, [zero])] ∧
  ∃ padding,
    header_bytes_of big_endian file = json_dumps (mkHeader [(c, Z.of_nat n)] padding) ∧
    remove_padding (bit_string_of (payload_of big_endian file)) padding = replicate n zero.
Proof.
  intros Hn. destruct n as [|n]; [lia|].
  intros (root & codes & data & length_bytes & Hne & Hroot & Hfull & Hnd & Hperm &
     Hcodes & Hdata & Hback & Hbytes & Hdata_ne & Hpack & ->)%compress_file_Success.
  rewrite build_frequency_table_replicate in *. split; [done|].
  rewrite build_huffman_tree_single in Hroot. injection Hroot as <-.
  apply single_leaf_codes in Hcodes as [_ Hcodes]. rewrite length_replicate in Hcodes.
  destruct (file_parts _ _ _ data Hpack) as (-> & -> & _).
  destruct (pad_encoded_text_padding (concat codes)) as (Hrange & _).
  exists (pad_encoded_text (concat codes)).2. split; [done|].
  rewrite Hback, pad_encoded_text_padded, remove_padding_app by lia. done.
Qed.

(** C7. Compressing an empty text shows the warning of the empty input
    and returns: no frequency table, tree, code or container is
    computed and nothing is written. *)
Theorem compress_file_empty_input :
  compress_file json_dumps big_endian [] = Warning "Input file is empty!".
Proof. done. Qed.

(** C8. A container whose header holds one symbol and whose payload has
    bits left after the padding is removed: the rebuilt tree is a single
    leaf, both children of the leaf are [None], and the first step of
    the walk reads an attribute of [None]; [decompress_file] raises and
    returns no text. *)
Theorem decompress_single_symbol_header_raises file (c : A) f padding :
  4 ≤ length file →
  json_loads (header_bytes_of big_endian file) = Some (loaded (mkHeader [(c, f)] padding)) →
  remove_padding (bit_string_of (payload_of big_endian file)) padding ≠ [] →
  ∃ leaf,
    build_huffman_tree [(c, f)] = Some leaf ∧
    char leaf = Some c ∧ left leaf = None ∧ right leaf = None ∧
    decompress_file json_loads big_endian file = Raised AttributeError.
Proof.
  intros Hlen Hloads Hbits. exists (mkNode (Some c) f None None).
  split_and!; [done..|].
  rewrite (decompress_file_parts _ _ _ _ Hlen Hloads). cbn [h_freq h_padding].
  destruct (payload_of big_endian file) as [|v data].
  { destruct Hbits. unfold remove_padding. by case_bool_decide. }
  rewrite build_huffman_tree_single.
  destruct (remove_padding _ _) as [|bit bit_string]; [done|].
  simpl. by destruct (decide (bit = zero)).
Qed.

(** C9, as the code has it.  The padding of the header is used as it
    is read.  For a container with a payload that is not empty, whose
    header holds an object of integer counts and an integer padding of
    at least eight times the number of payload bytes, no bit is left
    after the padding is removed and [decompress_file] writes an empty
    text with success. *)
Theorem oversized_padding_decodes_empty file header :
  4 ≤ length file →
  json_loads (header_bytes_of big_endian file) = Some (loaded header) →
  payload_of big_endian file ≠ [] →
  Forall is_byte (payload_of big_endian file) →
  (8 * Z.of_nat (length (payload_of big_endian file)) ≤ h_padding header)%Z →
  remove_padding (bit_string_of (payload_of big_endian file)) (h_padding header) = [] ∧
  decompress_file json_loads big_endian file = Success [].
Proof.
  intros Hlen Hloads Hne Hbytes Hpadding.
  assert (remove_padding (bit_string_of (payload_of big_endian file)) (h_padding header) = [])
    as Hempty.
  { unfold remove_padding. rewrite bool_decide_true.
    - rewrite bit_string_of_length by done.
      replace (_ - _) with 0 by lia. done.
    - destruct (payload_of big_endian file); simpl in *; [done|lia]. }
  split; [done|].
  rewrite (decompress_file_parts _ _ _ _ Hlen Hloads), Hempty.
  by destruct (payload_of big_endian file).
Qed.

End entry_point_properties.

(** ** Runs on concrete inputs, with the reference [json] on a
    little-endian host *)

Section concrete_runs.
Import JsonRef.

Local Ltac header_reads_back :=
  let padding := fresh "padding" in
  let Hrange := fresh "Hrange" in
  let Hcases := fresh "Hcases" in
  intros padding Hrange;
  assert (padding = 0 ∨ padding = 1 ∨ padding = 2 ∨ padding = 3 ∨
          padding = 4 ∨ padding = 5 ∨ padding = 6 ∨ padding = 7)%Z as Hcases by lia;
  repeat (destruct Hcases as [-> | Hcases]); [..|subst padding]; vm_compute; reflexivity.

Local Ltac elem_of_literal :=
  repeat first [apply list_elem_of_here | apply list_elem_of_further].

(** The concrete scenario of the specification: ["aaabbc"] is recovered
    exactly. *)
Example round_trip_aaabbc :
  ∃ file,
    compress_file dumps false (text_of "aaabbc") = Success file ∧
    decompress_file loads false file = Success (text_of "aaabbc").
Proof.
  eexists. split; [vm_compute; reflexivity|].
  apply (compress_decompress_round_trip dumps loads false (text_of "aaabbc") _
           "a"%char "b"%char); [elem_of_literal..|done|header_reads_back|].
  vm_compute; reflexivity.
Defined.

(** C1. The round trip fails on the text ["a"]: [compress_file] writes a
    container, and [decompress_file] raises [AttributeError] on it and
    recovers no text. *)
Theorem round_trip_single_symbol_fails :
  ∃ file,
    compress_file dumps false (text_of "a") = Success file ∧
    decompress_file loads false file = Raised AttributeError.
Proof. eexists. split; vm_compute; reflexivity. Qed.

(** C2, at an input: the payload of the container of ["abcabcabc"] cut
    by one byte leaves seven bits, which end inside a code;
    [decompress_file] reports success and writes ["abca"]. *)
Lemma truncated_payload_undetected :
  ∃ file,
    compress_file dumps false (text_of "abcabcabc") = Success file ∧
    decompress_file loads false (removelast file) = Success (text_of "abca") ∧
    text_of "abca" ≠ text_of "abcabcabc".
Proof. eexists. split_and!; [vm_compute; reflexivity..|discriminate]. Qed.

Lemma truncated_payload_outcome_witness :
  ∃ file,
    compress_file dumps false (text_of "abcabcabc") = Success file ∧
    (length (payload_of false file) = 1 →
     decompress_file loads false (removelast file) = Warning "Compressed file is empty!") ∧
    (1 < length (payload_of false file) →
     ∃ decoded_text,
       decompress_file loads false (removelast file) = Success decoded_text ∧
       decoded_text `prefix_of` text_of "abcabcabc" ∧
       decoded_text ≠ text_of "abcabcabc").
Proof.
  eexists. split; [vm_compute; reflexivity|].
  apply (truncated_payload_outcome dumps loads false (text_of "abcabcabc") _
           "a"%char "b"%char); [elem_of_literal..|done|header_reads_back|].
  vm_compute; reflexivity.
Defined.

Lemma single_symbol_code_and_payload_witness :
  ∃ file,
    compress_file dumps false (replicate 3 "a"%char) = Success file ∧
    generate_codes (build_huffman_tree (build_frequency_table (replicate 3 "a"%char))) [] [] =
      [("a"%char, [zero])] ∧
    ∃ padding,
      header_bytes_of false file = dumps (mkHeader [("a"%char, 3%Z)] padding) ∧
      remove_padding (bit_string_of (payload_of false file)) padding = replicate 3 zero.
Proof.
  eexists. split; [vm_compute; reflexivity|].
  apply (single_symbol_code_and_payload dumps false "a"%char 3); [lia|].
  vm_compute; reflexivity.
Defined.

Lemma decompress_single_symbol_header_raises_witness :
  let header_bytes := dumps (mkHeader [("a"%char, 3%Z)] 5) in
  let file := [Z.of_nat (length header_bytes); 0; 0; 0]%Z ++ header_bytes ++ [0%Z] in
  ∃ leaf,
    build_huffman_tree [("a"%char, 3%Z)] = Some leaf ∧
    char leaf = Some "a"%char ∧ left leaf = None ∧ right leaf = None ∧
    decompress_file loads false file = Raised AttributeError.
Proof.
  intros header_bytes file.
  apply (decompress_single_symbol_header_raises loads false file "a"%char 3 5).
  - vm_compute. lia.
  - vm_compute; reflexivity.
  - vm_compute. discriminate.
Defined.

(** C9, at three inputs that meet the bound on the padding.  With an
    empty payload [decompress_file] stops at the warning of the empty
    file.  With a payload of one byte and the padding [8.0] the slice
    raises [TypeError]; with the padding [8] and ["freq": []],
    [build_huffman_tree] raises [AttributeError].  None of the three
    writes an empty text. *)
Lemma oversized_padding_not_written :
  let framed header_bytes payload :=
    [Z.of_nat (length header_bytes); 0; 0; 0]%Z ++ header_bytes ++ payload in
  let header := mkHeader [("a"%char, 1%Z)] 0 in
  let file := framed (dumps header) [] in
  let counts := dumps_freq [("a"%char, 1%Z); ("b"%char, 1%Z)] in
  let file_float := framed (header_text counts (bytes_of "8.0")) [128%Z] in
  let file_array := framed (header_text (bytes_of "[]") (bytes_of "8")) [128%Z] in
  (loads (header_bytes_of false file) = Some (loaded header) ∧
   (8 * Z.of_nat (length (payload_of false file)) ≤ h_padding header)%Z ∧
   decompress_file loads false file = Warning "Compressed file is empty!" ∧
   decompress_file loads false file ≠ Success []) ∧
  (loads (header_bytes_of false file_float) =
     Some (mkLoaded (FreqObject [("a"%char, 1%Z); ("b"%char, 1%Z)]) (PaddingFloat true)) ∧
   payload_of false file_float = [128%Z] ∧
   decompress_file loads false file_float = Raised TypeError) ∧
  (loads (header_bytes_of false file_array) = Some (mkLoaded FreqOther (PaddingInt 8)) ∧
   payload_of false file_array = [128%Z] ∧
   decompress_file loads false file_array = Raised AttributeError).
Proof.
  split_and!; try (vm_compute; reflexivity); [vm_compute|]; discriminate.
Qed.

Lemma oversized_padding_decodes_empty_witness :
  let header := mkHeader [("a"%char, 1%Z); ("b"%char, 1%Z)] 8 in
  let file := [Z.of_nat (length (dumps header)); 0; 0; 0]%Z ++ dumps header ++ [128%Z] in
  remove_padding (bit_string_of (payload_of false file)) (h_padding header) = [] ∧
  decompress_file loads false file = Success [].
Proof.
  intros header file.
  apply (oversized_padding_decodes_empty loads false file header).
  - vm_compute. lia.
  - vm_compute; reflexivity.
  - vm_compute. discriminate.
  - vm_compute. repeat constructor; discriminate.
  - vm_compute. discriminate.
Defined.

End concrete_runs.

(** * Further properties of the codec *)

(** ** Frequency table *)

Section frequency_properties.
Context {A : Type} `{EqDecision A}.
Implicit Types (text : list A) (d : list (A * Z)).

Lemma dict_get_None {V} (d : list (A * V)) k : dict_get d k = None ↔ k ∉ d.*1.
Proof.
  induction d as [|[k' v'] d IH]; csimpl.
  - split; [intros _; apply not_elem_of_nil|done].
  - rewrite not_elem_of_cons. destruct (decide (k' = k)) as [->|Hne].
    + split; [done|]. by intros [? _].
    + rewrite IH. split; [by split|]. by intros [_ ?].
Qed.

Lemma dict_get_count_symbol d x c :
  dict_get (count_symbol d x) c =
  if decide (x = c) then Some (default 0%Z (dict_get d c) + 1)%Z else dict_get d c.
Proof.
  induction d as [|[k v] d IH]; simpl.
  - by destruct (decide (x = c)).
  - destruct (decide (k = x)) as [->|Hkx]; simpl.
    + by destruct (decide (x = c)).
    + destruct (decide (k = c)) as [->|Hkc]; [|by rewrite IH].
      by destruct (decide (x = c)).
Qed.

Lemma total_count_symbol d x : total (count_symbol d x).*2 = (total d.*2 + 1)%Z.
Proof.
  unfold total. induction d as [|[k v] d IH]; csimpl; [done|].
  destruct (decide (k = x)); csimpl; [|rewrite IH]; lia.
Qed.

Lemma Forall_count_symbol d x :
  Forall (λ e, 1 ≤ e.2)%Z d → Forall (λ e, 1 ≤ e.2)%Z (count_symbol d x).
Proof.
  induction 1 as [|[k v] d Hv Hd IH]; simpl.
  - by constructor.
  - destruct (decide (k = x)); constructor; simpl in *; (done || lia).
Qed.

Lemma filter_eq_not_elem_of text c : c ∉ text → filter (λ x, x = c) text = [].
Proof.
  induction text as [|x text IH]; [done|].
  rewrite not_elem_of_cons. intros [Hne Hnin].
  rewrite filter_cons, decide_False by done. by apply IH.
Qed.

(** X1.  The table maps every symbol of the text to the number of its
    occurrences, and holds no other key. *)
Theorem build_frequency_table_counts text c :
  dict_get (build_frequency_table text) c =
  if decide (c ∈ text) then Some (Z.of_nat (occurrences c text)) else None.
Proof.
  unfold occurrences.
  induction text as [|x text IH] using rev_ind; [done|].
  rewrite build_frequency_table_snoc, dict_get_count_symbol, IH, filter_app, length_app.
  rewrite filter_cons, filter_nil.
  destruct (decide (x = c)) as [->|Hne].
  - rewrite (decide_True (P := c ∈ text ++ [c])) by (apply elem_of_app; right; by left).
    f_equal. destruct (decide (c ∈ text)) as [Hin|Hnin]; simpl; [lia|].
    by rewrite filter_eq_not_elem_of.
  - simpl. rewrite Nat.add_0_r.
    destruct (decide (c ∈ text)) as [Hin|Hnin].
    + by rewrite decide_True by (apply elem_of_app; by left).
    + rewrite decide_False; [done|].
      rewrite elem_of_app, list_elem_of_singleton. by intros [?|?].
Qed.

Lemma frequency_total text :
  total (build_frequency_table text).*2 = Z.of_nat (length text).
Proof.
  induction text as [|x text IH] using rev_ind; [done|].
  rewrite build_frequency_table_snoc, total_count_symbol, IH, length_app. simpl. lia.
Qed.

(** X2.  Every count of the table is at least 1, and the counts add up to
    the length of the text. *)
Theorem build_frequency_table_total text :
  Forall (λ e, 1 ≤ e.2)%Z (build_frequency_table text) ∧
  total (build_frequency_table text).*2 = Z.of_nat (length text).
Proof.
  split; [|apply frequency_total].
  induction text as [|x text IH] using rev_ind; [constructor|].
  rewrite build_frequency_table_snoc. by apply Forall_count_symbol.
Qed.

End frequency_properties.

(** ** Huffman tree and code table *)

Section tree_properties.
Context {A : Type} `{EqDecision A}.
Implicit Types (node root : Node A) (heap : list (Node A)) (freq_table : list (A * Z)).

Lemma summed_tree_full node : summed_tree node → full_tree node.
Proof. induction 1; by constructor. Qed.

Lemma total_app (l1 l2 : list Z) : total (l1 ++ l2) = (total l1 + total l2)%Z.
Proof. unfold total. induction l1 as [|x l1 IH]; simpl; lia. Qed.

Lemma total_Permutation (l1 l2 : list Z) : l1 ≡ₚ l2 → total l1 = total l2.
Proof. unfold total. induction 1; simpl; lia. Qed.

Lemma summed_tree_freq node : summed_tree node → freq node = total (leaf_items node).*2.
Proof.
  induction 1 as [c f|l r _ IHl _ IHr]; csimpl.
  - unfold total. simpl. lia.
  - by rewrite fmap_app, total_app, IHl, IHr.
Qed.

Lemma merge_loop_items fuel heap :
  Forall summed_tree heap →
  Forall summed_tree (merge_loop fuel heap) ∧
  merge_loop fuel heap ≫= leaf_items ≡ₚ heap ≫= leaf_items.
Proof.
  revert heap. induction fuel as [|fuel IH]; intros heap Hsum; cbn [merge_loop]; [by split|].
  case_bool_decide as Hlen; [|by split].
  destruct (heappop Node_lt heap) as [[l heap1]|] eqn:Hpop1; [|by split].
  destruct (heappop Node_lt heap1) as [[r heap2]|] eqn:Hpop2.
  2:{ destruct (heappop_is_Some Node_lt heap1) as [? ?]; [|congruence].
      apply heappop_perm, Permutation_length in Hpop1.
      destruct heap1; simpl in *; [lia|done]. }
  apply heappop_perm in Hpop1.
  apply heappop_perm in Hpop2.
  set (merged := mkNode None (freq l + freq r)%Z (Some l) (Some r)).
  pose proof (heappush_perm Node_lt heap2 merged) as Hpush.
  assert (heap ≡ₚ l :: r :: heap2) as Hheap by (by rewrite <- Hpop1, <- Hpop2).
  rewrite Hheap in Hsum. apply Forall_cons in Hsum as [Hl Hsum].
  apply Forall_cons in Hsum as [Hr Hsum].
  destruct (IH (heappush Node_lt heap2 merged)) as (IH1 & IH2).
  { rewrite Hpush. constructor; [by constructor|done]. }
  split; [done|]. rewrite IH2, Hpush, Hheap. csimpl. by rewrite (assoc_L (++)).
Qed.

(** X3.  The tree of a frequency table with entries: every merged node holds
    the sum of its two children, the leaves hold the entries of the
    table, each once, and the root holds the sum of all counts. *)
Theorem build_huffman_tree_items freq_table :
  freq_table ≠ [] →
  ∃ root,
    build_huffman_tree freq_table = Some root ∧ summed_tree root ∧
    leaf_items root ≡ₚ freq_table ∧ freq root = total freq_table.*2.
Proof.
  intros Hne. unfold build_huffman_tree.
  set (heap0 := (λ '(char, freq), mkNode (Some char) freq None None) <$> freq_table).
  pose proof (heapify_perm Node_lt heap0) as Hperm. cbv zeta.
  assert (Forall summed_tree heap0) as Hsum0.
  { apply Forall_fmap, Forall_true. intros [c f]. constructor. }
  assert (heap0 ≫= leaf_items = freq_table) as Hitems0.
  { subst heap0. clear. induction freq_table as [|[c f] ? IH]; csimpl; [done|]. by f_equal. }
  assert (heapify Node_lt heap0 ≠ []) as Hne0.
  { intros Hnil. apply Permutation_length in Hperm. rewrite Hnil in Hperm.
    subst heap0. rewrite length_fmap in Hperm. by destruct freq_table. }
  destruct (merge_loop_spec (length (heapify Node_lt heap0)) (heapify Node_lt heap0))
    as (_ & _ & Hlen).
  { rewrite Hperm. eapply Forall_impl; [done|]. apply summed_tree_full. }
  specialize (Hlen (le_n _) Hne0).
  destruct (merge_loop_items (length (heapify Node_lt heap0)) (heapify Node_lt heap0))
    as (Hsum & Hitems); [by rewrite Hperm|].
  destruct (merge_loop _ _) as [|root [|]] eqn:Hrun; simpl in Hlen; try lia.
  apply Forall_cons in Hsum as [Hroot _]. csimpl in Hitems.
  rewrite (right_id_L [] (++)), Hperm, Hitems0 in Hitems.
  exists root. split_and!; [done..|].
  rewrite summed_tree_freq by done. apply total_Permutation. by rewrite Hitems.
Qed.

(** X4.  The root of the tree of a text holds the length of the text. *)
Theorem tree_root_frequency (text : list A) :
  text ≠ [] →
  ∃ root,
    build_huffman_tree (build_frequency_table text) = Some root ∧
    freq root = Z.of_nat (length text).
Proof.
  intros Hne.
  destruct (build_huffman_tree_spec (build_frequency_table text)) as (root & Hroot & _);
    [by apply build_frequency_table_nonempty|].
  exists root. split; [done|].
  pose proof Hroot as Hrun. unfold build_huffman_tree in Hrun.
  set (heap0 := (λ '(char, freq), mkNode (Some char) freq None None) <$> build_frequency_table text) in Hrun.
  cbv zeta in Hrun.
  pose proof (heapify_perm Node_lt heap0) as Hperm.
  destruct (merge_loop_items (length (heapify Node_lt heap0)) (heapify Node_lt heap0))
    as (Hsum & Hitems).
  { rewrite Hperm. apply Forall_fmap, Forall_true. intros [c f]. constructor. }
  destruct (merge_loop _ _) as [|root' rest] eqn:Hloop; [done|]. injection Hrun as ->.
  destruct (merge_loop_spec (length (heapify Node_lt heap0)) (heapify Node_lt heap0))
    as (_ & _ & Hlen).
  { rewrite Hperm. apply Forall_fmap, Forall_true. intros [c f]. constructor. }
  rewrite Hloop in Hlen. destruct rest.
  2:{ simpl in Hlen. assert (heapify Node_lt heap0 ≠ []) as Hne0.
      { intros Hnil. rewrite Hnil in Hloop. done. }
      specialize (Hlen (le_n _) Hne0). lia. }
  apply Forall_cons in Hsum as [Hsummed _]. csimpl in Hitems.
  rewrite (right_id_L [] (++)), Hperm in Hitems.
  assert (heap0 ≫= leaf_items = build_frequency_table text) as Hitems0.
  { subst heap0. generalize (build_frequency_table text). clear.
    intros d. induction d as [|[c f] ? IH]; csimpl; [done|]. by f_equal. }
  rewrite summed_tree_freq, <- frequency_total by done.
  apply total_Permutation. by rewrite Hitems, Hitems0.
Qed.

Lemma paths_length node c p :
  full_tree node → (c, p) ∈ paths node → length p < length (leaves node).
Proof.
  intros Hfull. revert p.
  induction Hfull as [c' f|f l r Hl IHl Hr IHr]; intros p; csimpl.
  { intros [= _ ->]%list_elem_of_singleton. simpl. lia. }
  rewrite elem_of_app, !list_elem_of_fmap, length_app.
  pose proof (full_tree_leaves_nonempty l Hl). pose proof (full_tree_leaves_nonempty r Hr).
  intros [([? q] & [= -> ->] & Hin)|([? q] & [= -> ->] & Hin)]; simpl.
  - apply IHl in Hin. destruct (leaves r); simpl; [done|lia].
  - apply IHr in Hin. destruct (leaves l); simpl; [done|lia].
Qed.

(** X5.  Every code of the table of a frequency map (a [dict]: distinct
    keys) with [n] entries is a string of '0' and '1' with at least one
    character and at most [n - 1], or one for a single entry. *)
Theorem code_length_bound freq_table c w :
  freq_table ≠ [] → NoDup freq_table.*1 →
  dict_get (generate_codes (build_huffman_tree freq_table) [] []) c = Some w →
  Forall is_bit w ∧ 1 ≤ length w ≤ max 1 (length freq_table - 1).
Proof.
  intros Hne Hnd.
  destruct (code_table_of_freq_table freq_table Hne Hnd)
    as (root & -> & Hfull & Hperm & Hleaves & ->).
  intros Hw%dict_get_Some; [|by rewrite codes_of_keys].
  destruct (codes_of_bits root c w Hfull Hw) as [Hbits Hnonempty].
  split; [done|]. split; [destruct w; simpl; [done|lia]|].
  apply Permutation_length in Hperm. rewrite length_fmap in Hperm.
  destruct Hfull as [c' f|f l r Hl Hr].
  - apply list_elem_of_singleton in Hw as [= -> ->]. simpl. lia.
  - rewrite codes_of_merged_root in Hw.
    apply paths_length in Hw; [|by constructor]. lia.
Qed.

End tree_properties.

Lemma code_length_bound_witness :
  let freq_table := [("a"%char, 3%Z); ("b"%char, 2%Z); ("c"%char, 1%Z)] in
  Forall is_bit [one; zero] ∧ 1 ≤ length [one; zero] ≤ max 1 (length freq_table - 1).
Proof.
  apply (code_length_bound [("a"%char, 3%Z); ("b"%char, 2%Z); ("c"%char, 1%Z)] "c"%char).
  - discriminate.
  - apply (bool_decide_unpack _). vm_compute. exact I.
  - vm_compute. reflexivity.
Defined.

Lemma build_huffman_tree_items_witness :
  let freq_table := [("a"%char, 3%Z); ("b"%char, 2%Z); ("c"%char, 1%Z)] in
  ∃ root,
    build_huffman_tree freq_table = Some root ∧ summed_tree root ∧
    leaf_items root ≡ₚ freq_table ∧ freq root = total freq_table.*2.
Proof.
  apply (build_huffman_tree_items [("a"%char, 3%Z); ("b"%char, 2%Z); ("c"%char, 1%Z)]).
  discriminate.
Defined.

Lemma tree_root_frequency_witness :
  ∃ root,
    build_huffman_tree (build_frequency_table (JsonRef.text_of "aaabbc")) = Some root ∧
    freq root = 6%Z.
Proof.
  apply (tree_root_frequency (JsonRef.text_of "aaabbc")). discriminate.
Defined.

(** ** Encoding *)

Section encoding_properties.
Context {A : Type} `{EqDecision A}.
Implicit Types (text : list A) (code_table : list (A * bits)).

(** X6.  [encode_text] raises [KeyError] exactly when a symbol of the text
    is not a key of the code table; otherwise it returns the codes of
    the symbols of the text, each the value of the table at the symbol,
    joined in the order of the text. *)
Theorem encode_text_KeyError text code_table :
  (encode_text text code_table = None ↔ ∃ c, c ∈ text ∧ c ∉ code_table.*1) ∧
  (∀ enc,
     encode_text text code_table = Some enc ↔
     ∃ codes,
       Forall2 (λ c w, dict_get code_table c = Some w) text codes ∧
       enc = concat codes).
Proof.
  unfold encode_text.
  destruct (mapM (dict_get code_table) text) as [codes|] eqn:Hcodes; simpl.
  - split.
    + split; [done|]. intros (c & Hin & Hnone%dict_get_None).
      assert (mapM (dict_get code_table) text = None); [|congruence].
      apply mapM_None, Exists_exists. eauto.
    + intros enc. split.
      * intros [= <-]. exists codes. split; [by apply mapM_Some|done].
      * intros (codes' & Hcodes'%mapM_Some & ->). congruence.
  - split.
    + split; [|done]. intros _.
      apply mapM_None, Exists_exists in Hcodes as (c & Hin & Hnone).
      exists c. split; [done|]. by apply dict_get_None.
    + intros enc. split; [done|]. intros (codes' & Hcodes'%mapM_Some & _). congruence.
Qed.

Lemma total_weights_count_symbol (g : A → Z) (d : list (A * Z)) x :
  total ((λ e, e.2 * g e.1)%Z <$> count_symbol d x) =
  (total ((λ e, e.2 * g e.1)%Z <$> d) + g x)%Z.
Proof.
  unfold total. induction d as [|[k v] d IH]; csimpl; [lia|].
  destruct (decide (k = x)) as [->|Hne]; csimpl; [|rewrite IH]; lia.
Qed.

Lemma total_over_text (g : A → Z) text :
  total (g <$> text) = total ((λ e, e.2 * g e.1)%Z <$> build_frequency_table text).
Proof.
  induction text as [|x text IH] using rev_ind; [done|].
  rewrite build_frequency_table_snoc, total_weights_count_symbol, <- IH.
  rewrite fmap_app. unfold total. rewrite foldr_app. simpl.
  generalize (g <$> text). intros l. induction l as [|y l IHl]; simpl; lia.
Qed.

(** X7.  The number of encoded bits is the sum, over the entries of the
    frequency table, of the count times the length of the code. *)
Theorem encoded_length text code_table enc :
  encode_text text code_table = Some enc →
  Z.of_nat (length enc) =
  total ((λ e, e.2 * Z.of_nat (code_length code_table e.1))%Z <$> build_frequency_table text).
Proof.
  unfold encode_text.
  destruct (mapM (dict_get code_table) text) as [codes|] eqn:Hcodes; [|done].
  intros [= <-]. apply mapM_Some in Hcodes.
  rewrite <- (total_over_text (λ c, Z.of_nat (code_length code_table c))).
  unfold total. induction Hcodes as [|c w text codes Hw _ IH]; csimpl; [done|].
  rewrite length_app, Nat2Z.inj_add, IH. unfold code_length at 2. by rewrite Hw.
Qed.

(** X8.  Over the code table of a frequency map (a [dict]: distinct keys),
    two texts with the same encoded bits are equal: the code is
    uniquely decodable. *)
Theorem encode_text_injective (freq_table : list (A * Z)) text1 text2 enc :
  freq_table ≠ [] → NoDup freq_table.*1 →
  let code_table := generate_codes (build_huffman_tree freq_table) [] [] in
  encode_text text1 code_table = Some enc →
  encode_text text2 code_table = Some enc →
  text1 = text2.
Proof.
  intros Hne Hnd code_table. subst code_table.
  destruct (code_table_of_freq_table freq_table Hne Hnd)
    as (root & -> & Hfull & Hperm & Hleaves & ->).
  assert (NoDup (codes_of root []).*1) as Hkeys by (by rewrite codes_of_keys).
  assert (∀ text, encode_text text (codes_of root []) = Some enc →
            ∃ codes, Forall2 (λ c w, (c, w) ∈ codes_of root []) text codes ∧
                     enc = concat codes) as Hinv.
  { intros text. unfold encode_text.
    destruct (mapM _ text) as [codes|] eqn:Hcodes; [|done]. intros [= <-].
    exists codes. split; [|done]. apply mapM_Some in Hcodes.
    eapply Forall2_impl; [done|]. intros c w Hw. by apply dict_get_Some in Hw. }
  intros (codes1 & H1 & ->)%Hinv (codes2 & H2 & Heq)%Hinv.
  destruct Hfull as [c f|f l r Hl Hr].
  - apply single_leaf_codes in H1 as [-> H1], H2 as [-> H2].
    rewrite H1, H2 in Heq. apply (f_equal length) in Heq.
    rewrite !length_replicate in Heq. by rewrite Heq.
  - rewrite codes_of_merged_root in H1, H2.
    pose proof (decode_loop_codes f l r text1 codes1 [] [] (full_merged f l r Hl Hr) H1) as D1.
    pose proof (decode_loop_codes f l r text2 codes2 [] [] (full_merged f l r Hl Hr) H2) as D2.
    rewrite (right_id_L [] (++)) in D1, D2. rewrite Heq, D2 in D1.
    simpl in D1. by injection D1.
Qed.

End encoding_properties.

Lemma encoded_length_witness :
  let text := JsonRef.text_of "aaabbc" in
  let code_table := generate_codes (build_huffman_tree (build_frequency_table text)) [] [] in
  Z.of_nat (length [zero; zero; zero; one; one; one; one; one; zero]) =
  total ((λ e, e.2 * Z.of_nat (code_length code_table e.1))%Z <$> build_frequency_table text).
Proof.
  apply (encoded_length (JsonRef.text_of "aaabbc")). vm_compute. reflexivity.
Defined.

Lemma encode_text_injective_witness :
  JsonRef.text_of "cab" = JsonRef.text_of "cab".
Proof.
  apply (encode_text_injective [("a"%char, 3%Z); ("b"%char, 2%Z); ("c"%char, 1%Z)]
           (JsonRef.text_of "cab") (JsonRef.text_of "cab") [one; zero; zero; one; one]).
  - discriminate.
  - apply (bool_decide_unpack _). vm_compute. exact I.
  - vm_compute. reflexivity.
  - vm_compute. reflexivity.
Defined.

(** ** Packing and unpacking *)

Section packing_properties.
Implicit Types (s : bits) (data : list Z).

Lemma int2_fold s :
  s ≠ [] →
  int2 s = foldl (λ acc ch, a ← acc; d ← digit2 ch; Some (2 * a + d)%Z) (Some 0%Z) s.
Proof. by destruct s. Qed.

Lemma int2_bits s : Forall is_bit s → s ≠ [] → is_Some (int2 s).
Proof.
  intros Hbits Hne. rewrite int2_fold by done. clear Hne.
  generalize 0%Z. induction Hbits as [|ch s [->| ->] _ IH]; intros acc; simpl; eauto.
Qed.

Lemma range8_short n : 0 < n → n ≤ 8 → range8 n = [0].
Proof.
  intros Hpos Hle. unfold range8.
  assert ((n + 7) / 8 = 1) as ->; [|done].
  symmetry. apply (Nat.div_unique _ _ _ (n - 1)); lia.
Qed.

(** X9.  [get_byte_array] raises nothing on a string of '0' and '1' of any
    length: it gives one byte value in [0, 256) for each started group
    of eight characters. *)
Theorem get_byte_array_bits s :
  Forall is_bit s →
  ∃ data, get_byte_array s = Some data ∧
          length data = (length s + 7) / 8 ∧ Forall is_byte data.
Proof.
  remember (length s) as n eqn:Hn. revert s Hn.
  induction (lt_wf n) as [n _ IH]. intros s -> Hbits.
  destruct (decide (length s = 0)) as [Hzero|Hpos].
  { destruct s; [|done]. by exists []. }
  destruct (decide (length s ≤ 8)) as [Hshort|Hlong].
  - destruct (int2_bits s) as [v Hv]; [done|by destruct s|].
    assert ((length s + 7) / 8 = 1) as ->.
    { symmetry. apply (Nat.div_unique _ _ _ (length s - 1)); lia. }
    exists [v]. unfold get_byte_array. rewrite range8_short by lia.
    cbn [mapM]. rewrite drop_0, take_ge, Hv by lia.
    split_and!; [done..|]. constructor; [|done]. by apply (int2_lt_256 s).
  - assert ((length s + 7) / 8 = S ((length (drop 8 s) + 7) / 8)) as ->.
    { rewrite length_drop.
      replace (length s + 7) with (1 * 8 + (length s - 8 + 7)) by lia.
      by rewrite Nat.div_add_l. }
    rewrite <- (take_drop 8 s) in Hbits |- *.
    apply Forall_app in Hbits as [Hchunk Hrest].
    destruct (int2_bits (take 8 s)) as [v Hv]; [done|by destruct s|].
    destruct (IH (length (drop 8 s))) with (s := drop 8 s) as (data & Hdata & Hlen & Hbytes);
      [rewrite length_drop; lia|done..|].
    exists (v :: data). rewrite get_byte_array_chunk by (rewrite length_take; lia).
    rewrite Hv, Hdata, drop_app_length' by (rewrite length_take; lia).
    split_and!; [done|by rewrite <- Hlen|].
    constructor; [|done]. apply (int2_lt_256 (take 8 s)); [|done].
    rewrite length_take. lia.
Qed.

Lemma fold_leading_zeros n s :
  foldl (λ acc ch, a ← acc; d ← digit2 ch; Some (2 * a + d)%Z) (Some 0%Z) (replicate n zero ++ s) =
  foldl (λ acc ch, a ← acc; d ← digit2 ch; Some (2 * a + d)%Z) (Some 0%Z) s.
Proof. induction n as [|n IH]; [done|]. simpl. apply IH. Qed.

Lemma fold_bin_pos p :
  foldl (λ acc ch, a ← acc; d ← digit2 ch; Some (2 * a + d)%Z) (Some 0%Z) (bin_pos p) =
  Some (Z.pos p).
Proof. induction p as [p IH|p IH|]; simpl; by rewrite ?foldl_app, ?IH. Qed.

Lemma int2_byte_bits v : is_byte v → int2 (rjust 8 zero (bin_tail v)) = Some v.
Proof.
  intros Hbyte. pose proof (byte_bits_length v Hbyte) as Hlen.
  rewrite int2_fold by (intros Hnil; by rewrite Hnil in Hlen).
  unfold rjust. rewrite fold_leading_zeros.
  destruct Hbyte as [Hge _]. destruct v as [|p|p]; [done|apply fold_bin_pos|lia].
Qed.

(** X10.  Packing the bits of a byte sequence gives the byte sequence back. *)
Theorem get_byte_array_bit_string_of data :
  Forall is_byte data → get_byte_array (bit_string_of data) = Some data.
Proof.
  unfold bit_string_of. induction 1 as [|v data Hv _ IH]; csimpl; [done|].
  rewrite get_byte_array_chunk by (by apply byte_bits_length).
  by rewrite int2_byte_bits, IH.
Qed.

End packing_properties.

Lemma get_byte_array_bits_witness :
  let s := [one; zero; one] in
  ∃ data, get_byte_array s = Some data ∧
          length data = (length s + 7) / 8 ∧ Forall is_byte data.
Proof.
  apply get_byte_array_bits.
  repeat (constructor; [(by left) || (by right)|]). constructor.
Defined.

Lemma get_byte_array_bit_string_of_witness :
  get_byte_array (bit_string_of [31; 0; 255]%Z) = Some [31; 0; 255]%Z.
Proof.
  apply get_byte_array_bit_string_of.
  repeat (constructor; [unfold is_byte; lia|]). constructor.
Defined.

(** ** Container and entry points *)

Section container_properties.
Context {A : Type} `{EqDecision A}.
Context (json_dumps : Header A → list Z) (json_loads : list Z → option (LoadedHeader A)).
Context (big_endian : bool).
Implicit Types (text : list A) (file : list Z) (node : Node A).

(** X11.  [compress_file] lets no exception escape, neither a [KeyError] from
    [encode_text] nor a [ValueError] from [get_byte_array]: an empty
    text ends in the warning, any other text in a written container or
    in the error box of the write. *)
Theorem compress_file_outcomes text :
  match text with
  | [] => compress_file json_dumps big_endian text = Warning "Input file is empty!"
  | _ =>
      (∃ file, compress_file json_dumps big_endian text = Success file) ∨
      compress_file json_dumps big_endian text = Error "Could not write output file"
  end.
Proof.
  destruct text as [|c text]; [done|].
  by apply compress_file_outcome.
Qed.

(** X12.  The layout of a written container: the four bytes of the length
    field give the exact length of the header, the header is the
    serialized frequency table of the text with a padding in [0, 7],
    and the payload holds byte values, eight bits for every byte making
    up the encoded bits and the padding. *)
Theorem container_layout text file :
  compress_file json_dumps big_endian text = Success file →
  let header_bytes := header_bytes_of big_endian file in
  let payload := payload_of big_endian file in
  file = take 4 file ++ header_bytes ++ payload ∧
  length (take 4 file) = 4 ∧
  struct_unpack_I big_endian (take 4 file) = Z.of_nat (length header_bytes) ∧
  Forall is_byte payload ∧
  ∃ padding enc,
    (0 ≤ padding ≤ 7)%Z ∧
    header_bytes = json_dumps (mkHeader (build_frequency_table text) padding) ∧
    encode_text text
      (generate_codes (build_huffman_tree (build_frequency_table text)) [] []) = Some enc ∧
    (8 * Z.of_nat (length payload) = Z.of_nat (length enc) + padding)%Z.
Proof.
  intros Hfile. pose proof Hfile as
    (root & codes & data & length_bytes & Hne & Hroot & Hfull & Hnd & Hperm &
     Hcodes & Hdata & Hback & Hbytes & Hdata_ne & Hpack & ->)%compress_file_Success.
  destruct (file_parts _ _ _ data Hpack) as (Hheader & Hpayload & _).
  pose proof Hpack as [Hlen Hunpack]%struct_unpack_pack.
  cbv zeta. rewrite Hheader, Hpayload, take_app_length' by done.
  split_and!; [done..|].
  destruct (pad_encoded_text_padding (concat codes)) as (Hrange & _).
  exists (pad_encoded_text (concat codes)).2, (concat codes).
  split_and!; [lia|lia|done| |].
  - rewrite Hroot, generate_codes_root by done. unfold encode_text.
    assert (mapM (dict_get (codes_of root [])) text = Some codes) as ->; [|done].
    apply mapM_Some. eapply Forall2_impl; [done|].
    intros c w Hw. apply dict_get_Some; [by rewrite codes_of_keys|done].
  - apply (f_equal length) in Hback.
    rewrite bit_string_of_length, pad_encoded_text_padded, length_app, length_replicate in Hback
      by done. lia.
Qed.

(** The walk over any characters, from any merged node of a full tree
    whose root is merged: it raises nothing, emits symbols of the tree
    only, and at most one for each character read. *)
Lemma decode_loop_total root_node node bit_string decoded_text :
  full_tree root_node → char root_node = None →
  full_tree node → char node = None →
  (∀ c, c ∈ leaves node → c ∈ leaves root_node) →
  ∃ emitted,
    decode_loop (Some root_node) (Some node) bit_string decoded_text =
      inr (decoded_text ++ emitted) ∧
    Forall (λ c, c ∈ leaves root_node) emitted ∧
    length emitted ≤ length bit_string.
Proof.
  intros Hroot Hroot_merged. revert node decoded_text.
  induction bit_string as [|bit bit_string IH]; intros node decoded_text Hnode Hmerged Hsub.
  { exists []. simpl. by rewrite (right_id_L [] (++)). }
  destruct Hnode as [c f|f l r Hl Hr]; [done|]. csimpl in Hsub.
  assert (∀ child, full_tree child → (∀ c, c ∈ leaves child → c ∈ leaves root_node) →
    ∃ emitted,
      match char child with
      | Some c => decode_loop (Some root_node) (Some root_node) bit_string (decoded_text ++ [c])
      | None => decode_loop (Some root_node) (Some child) bit_string decoded_text
      end = inr (decoded_text ++ emitted) ∧
      Forall (λ c, c ∈ leaves root_node) emitted ∧
      length emitted ≤ S (length bit_string)) as Hchild.
  { intros child Hchild Hsub'. destruct Hchild as [c f'|f' l' r' Hl' Hr']; cbn [char].
    - destruct (IH root_node (decoded_text ++ [c])) as (emitted & -> & Hin & Hlen); [done..|].
      exists (c :: emitted). rewrite <- (assoc_L (++)). split_and!; [done| |simpl; lia].
      constructor; [|done]. apply Hsub'. csimpl. by left.
    - destruct (IH (mkNode None f' (Some l') (Some r')) decoded_text)
        as (emitted & -> & Hin & Hlen); [by constructor|done|done|].
      exists emitted. split_and!; [done..|lia]. }
  simpl. destruct (decide (bit = zero)); cbn [left right]; apply Hchild; try done.
  - intros c Hc. apply Hsub, elem_of_app. by left.
  - intros c Hc. apply Hsub, elem_of_app. by right.
Qed.

Lemma build_huffman_tree_merged (freq_table : list (A * Z)) :
  2 ≤ length freq_table →
  ∃ root, build_huffman_tree freq_table = Some root ∧ full_tree root ∧
          char root = None ∧ leaves root ≡ₚ freq_table.*1.
Proof.
  intros Hlen.
  destruct (build_huffman_tree_spec freq_table) as (root & Hroot & Hfull & Hperm).
  { intros ->. simpl in Hlen. lia. }
  exists root. split_and!; [done..| |done].
  destruct (full_tree_two_leaves root Hfull) as (f & l & r & -> & _); [|done].
  apply Permutation_length in Hperm. rewrite length_fmap in Hperm. lia.
Qed.


(** The walk on the tree of a table, by the number of its entries. *)
Lemma decode_loop_table (freq_table : list (A * Z)) bit_string :
  let huffman_tree := build_huffman_tree freq_table in
  if decide (length freq_table ≤ 1) then
    decode_loop huffman_tree huffman_tree bit_string [] =
    match bit_string with [] => inr [] | _ => inl AttributeError end
  else ∃ decoded_text, decode_loop huffman_tree huffman_tree bit_string [] = inr decoded_text.
Proof.
  cbv zeta. destruct (decide (length freq_table ≤ 1)) as [Hfew|Hmany].
  - destruct freq_table as [|[c f] [|]]; [| |simpl in Hfew; lia].
    + by destruct bit_string.
    + destruct bit_string as [|bit bit_string]; [done|]. rewrite build_huffman_tree_single.
      simpl. by destruct (decide (bit = zero)).
  - destruct (build_huffman_tree_merged freq_table) as (root & -> & Hfull & Hmerged & _); [lia|].
    destruct (decode_loop_total root root bit_string []) as (emitted & -> & _); [done..|].
    by exists emitted.
Qed.

Lemma bit_string_of_nonempty data : data ≠ [] → bit_string_of data ≠ [].
Proof.
  destruct data as [|v data]; [done|]. intros _ Hbits%(f_equal length). revert Hbits.
  unfold bit_string_of, rjust. csimpl. rewrite !length_app, length_replicate.
  destruct v as [|p|p]; simpl; [lia| |lia].
  rewrite bin_pos_length. destruct p; simpl; lia.
Qed.

(** X14.  The exceptions that escape [decompress_file], for a header
    whose counts are integers.  The payload is not empty, and either
    ["freq"] is not an object and [build_huffman_tree] raises
    [AttributeError]; or ["padding"] is not a number, or is a positive
    float, and the removal of the padding raises [TypeError]; or the
    header holds fewer than two symbols, bits are left after the
    padding is removed and the walk raises [AttributeError].  In every
    other case nothing is raised. *)
Theorem decompress_file_raises file e :
  decompress_file json_loads big_endian file = Raised e ↔
  4 ≤ length file ∧ payload_of big_endian file ≠ [] ∧
  ∃ header,
    json_loads (header_bytes_of big_endian file) = Some header ∧
    match freq_value header, padding_value header with
    | FreqOther, _ => e = AttributeError
    | FreqObject _, PaddingOther | FreqObject _, PaddingFloat true => e = TypeError
    | FreqObject table, PaddingFloat false => e = AttributeError ∧ length table ≤ 1
    | FreqObject table, PaddingInt n =>
        e = AttributeError ∧ length table ≤ 1 ∧
        remove_padding (bit_string_of (payload_of big_endian file)) n ≠ []
    end.
Proof.
  destruct (decide (4 ≤ length file)) as [Hlen|Hshort].
  2:{ unfold decompress_file. rewrite bool_decide_true by (rewrite length_take; lia).
      split; [done|]. intros (? & _). lia. }
  destruct (json_loads (header_bytes_of big_endian file)) as [header|] eqn:Hloads.
  2:{ unfold decompress_file. rewrite bool_decide_false by (rewrite length_take; lia).
      unfold header_bytes_of in Hloads. rewrite Hloads.
      split; [done|]. by intros (_ & _ & ? & ? & _). }
  rewrite (decompress_file_loaded _ _ _ _ Hlen Hloads).
  destruct (payload_of big_endian file) as [|v data] eqn:Hdata.
  { split; [done|]. by intros (_ & ? & _). }
  pose proof (bit_string_of_nonempty (v :: data)) as Hbits.
  destruct header as [[table|] padding]; cbn [freq_value padding_value build_huffman_tree_of].
  2:{ split; [intros [= <-]; split_and!; [done..|]; by eexists|].
      by intros (_ & _ & ? & [= <-] & ->). }
  assert (∀ bit_string,
    match decode_loop (build_huffman_tree table) (build_huffman_tree table) bit_string [] with
    | inl e' => Raised e'
    | inr decoded_text => Success decoded_text
    end = Raised e ↔ e = AttributeError ∧ length table ≤ 1 ∧ bit_string ≠ []) as Hwalk.
  { intros bit_string. pose proof (decode_loop_table table bit_string) as Hcases.
    cbv zeta in Hcases. destruct (decide (length table ≤ 1)) as [Hfew|Hmany].
    - rewrite Hcases. destruct bit_string; [by split; [|intros (_ & _ & ?)]|].
      split; [by intros [= <-]|by intros [-> _]].
    - destruct Hcases as [decoded_text ->]. split; [done|]. intros (_ & ? & _). lia. }
  destruct padding as [n|[]|]; cbn [remove_padding_of].
  - rewrite Hwalk. split.
    + intros H. split_and!; [done..|]. by eexists.
    + by intros (_ & _ & ? & [= <-] & H).
  - split; [intros [= <-]; split_and!; [done..|]; by eexists|].
    by intros (_ & _ & ? & [= <-] & ->).
  - rewrite Hwalk. split.
    + intros (-> & ? & _). split_and!; [done..|]. by eexists.
    + intros (_ & _ & ? & [= <-] & -> & ?). split_and!; [done..|]. by apply Hbits.
  - split; [intros [= <-]; split_and!; [done..|]; by eexists|].
    by intros (_ & _ & ? & [= <-] & ->).
Qed.

End container_properties.

Lemma container_layout_witness :
  ∃ file,
    compress_file JsonRef.dumps false (JsonRef.text_of "aaabbc") = Success file ∧
    let text := JsonRef.text_of "aaabbc" in
    let header_bytes := header_bytes_of false file in
    let payload := payload_of false file in
    file = take 4 file ++ header_bytes ++ payload ∧
    length (take 4 file) = 4 ∧
    struct_unpack_I false (take 4 file) = Z.of_nat (length header_bytes) ∧
    Forall is_byte payload ∧
    ∃ padding enc,
      (0 ≤ padding ≤ 7)%Z ∧
      header_bytes = JsonRef.dumps (mkHeader (build_frequency_table text) padding) ∧
      encode_text text
        (generate_codes (build_huffman_tree (build_frequency_table text)) [] []) = Some enc ∧
      (8 * Z.of_nat (length payload) = Z.of_nat (length enc) + padding)%Z.
Proof.
  eexists. split; [vm_compute; reflexivity|].
  apply (container_layout JsonRef.dumps false (JsonRef.text_of "aaabbc")).
  vm_compute; reflexivity.
Defined.


(** A header of two symbols with the padding [null], before a payload of
    one byte: the test [extra_padding > 0] raises [TypeError]. *)
Lemma decompress_file_raises_witness :
  let counts := JsonRef.dumps_freq [("a"%char, 1%Z); ("b"%char, 1%Z)] in
  let header_bytes := JsonRef.header_text counts (JsonRef.bytes_of "null") in
  let file := [Z.of_nat (length header_bytes); 0; 0; 0]%Z ++ header_bytes ++ [172%Z] in
  decompress_file JsonRef.loads false file = Raised TypeError.
Proof.
  intros counts header_bytes file.
  apply (decompress_file_raises JsonRef.loads false file TypeError).
  split_and!.
  - vm_compute. lia.
  - vm_compute. discriminate.
  - exists (mkLoaded (FreqObject [("a"%char, 1%Z); ("b"%char, 1%Z)]) PaddingOther).
    split; [vm_compute; reflexivity|reflexivity].
Defined.

(** ** The heap order of [heapq] *)

Section heap_order.
Context {T : Type} (lt : T → T → bool) (key : T → Z).
Context (lt_key : ∀ a b, lt a b = (key a <? key b)%Z).
Implicit Types (heap : list T) (x : T).

Lemma parentpos_child j pos : 0 < j → (j - 1) / 2 = pos → j = 2 * pos + 1 ∨ j = 2 * pos + 2.
Proof.
  intros Hj <-. pose proof (Nat.div_mod_eq (j - 1) 2) as Hdiv.
  pose proof (Nat.mod_upper_bound (j - 1) 2). lia.
Qed.

Lemma parentpos_left pos : (2 * pos + 1 - 1) / 2 = pos.
Proof. replace (2 * pos + 1 - 1) with (pos * 2) by lia. apply Nat.div_mul. lia. Qed.

Lemma parentpos_right pos : (2 * pos + 2 - 1) / 2 = pos.
Proof.
  symmetry. apply (Nat.div_unique _ _ _ 1); lia.
Qed.

Lemma below_le i j : below i j → i ≤ j.
Proof.
  induction 1 as [|j Hj _ IH]; [done|].
  pose proof (parentpos_lt j Hj). lia.
Qed.

Lemma below_parent i j : below i j → i < j → below i ((j - 1) / 2) ∧ i ≤ (j - 1) / 2.
Proof.
  destruct 1 as [|j Hj Hbelow]; [lia|]. intros _. split; [done|]. by apply below_le.
Qed.

Lemma below_zero j : below 0 j.
Proof.
  induction (lt_wf j) as [j _ IH]. destruct (decide (j = 0)) as [->|Hne]; [constructor|].
  apply below_child; [lia|]. apply IH, parentpos_lt. lia.
Qed.

Lemma heap_from_min_heap heap : heap_from key 0 heap ↔ min_heap key heap.
Proof.
  unfold heap_from, min_heap. split; intros Hheap j p c Hj; intros; eapply Hheap; eauto; lia.
Qed.

Lemma hole_ok_insert i hole heap x :
  hole_ok key i hole heap → hole_ok key i hole (<[hole := x]> heap).
Proof.
  intros [Hpairs Hacross]. split.
  - intros j p c Hj Hi Hjh Hph. rewrite !list_lookup_insert_ne by done. by apply Hpairs.
  - intros j p c Hh Hi Hj Hjp.
    rewrite !list_lookup_insert_ne by (pose proof (parentpos_lt j); pose proof (parentpos_lt hole); lia).
    by apply Hacross.
Qed.

(** Writing the element set aside into the hole closes it, when its
    children are not below it and it is not below its parent. *)
Lemma hole_close i pos heap x :
  pos < length heap →
  hole_ok key i pos heap →
  (∀ j c, 0 < j → (j - 1) / 2 = pos → heap !! j = Some c → (key x ≤ key c)%Z) →
  (0 < pos → i ≤ (pos - 1) / 2 →
   ∀ p, heap !! ((pos - 1) / 2) = Some p → (key p ≤ key x)%Z) →
  heap_from key i (<[pos := x]> heap).
Proof.
  intros Hpos [Hpairs Hacross] Hchildren Hparent j p c Hj Hi.
  destruct (decide (j = pos)) as [->|Hjpos].
  - rewrite list_lookup_insert_eq by done.
    rewrite list_lookup_insert_ne by (pose proof (parentpos_lt pos); lia).
    intros Hp [= <-]. by apply Hparent.
  - rewrite (list_lookup_insert_ne _ pos j) by done.
    destruct (decide ((j - 1) / 2 = pos)) as [Heq|Hne].
    + rewrite Heq, list_lookup_insert_eq by done. intros [= <-] Hc.
      by apply (Hchildren j).
    + rewrite list_lookup_insert_ne by done. by apply Hpairs.
Qed.

(** One step of [_siftdown]: the parent moves down into the hole. *)
Lemma hole_up i pos heap x p :
  pos < length heap → i < pos → below i pos →
  hole_ok key i pos heap →
  (∀ j c, 0 < j → (j - 1) / 2 = pos → heap !! j = Some c → (key x ≤ key c)%Z) →
  heap !! ((pos - 1) / 2) = Some p → (key x < key p)%Z →
  hole_ok key i ((pos - 1) / 2) (<[pos := p]> heap) ∧
  (∀ j c, 0 < j → (j - 1) / 2 = (pos - 1) / 2 →
          <[pos := p]> heap !! j = Some c → (key x ≤ key c)%Z).
Proof.
  intros Hpos Hipos Hbelow [Hpairs Hacross] Hchildren Hp Hxp.
  destruct (below_parent i pos Hbelow Hipos) as [_ Hiq].
  pose proof (parentpos_lt pos) as Hq.
  assert (∀ j c, 0 < j → (j - 1) / 2 = (pos - 1) / 2 →
            <[pos := p]> heap !! j = Some c → (key p ≤ key c)%Z) as Hsiblings.
  { intros j c Hj Hjq. destruct (decide (j = pos)) as [->|Hjpos].
    - rewrite list_lookup_insert_eq by done. intros [= <-]. lia.
    - rewrite list_lookup_insert_ne by done. intros Hc.
      apply (Hpairs j p c); [done|lia|done|lia|by rewrite Hjq|done]. }
  split; [split|].
  - intros j p' c Hj Hi Hjq Hpq.
    destruct (decide (j = pos)) as [->|Hjpos]; [done|].
    rewrite (list_lookup_insert_ne _ pos j) by done.
    destruct (decide ((j - 1) / 2 = pos)) as [Heq|Hne].
    + rewrite Heq, list_lookup_insert_eq by done. intros [= <-] Hc.
      apply (Hacross j p c); [lia|done|done|done|done|done].
    + rewrite list_lookup_insert_ne by done. by apply Hpairs.
  - intros j g c Hq0 Hig Hj Hjq.
    pose proof (parentpos_lt ((pos - 1) / 2)) as Hg.
    rewrite (list_lookup_insert_ne _ pos ((_ - 1) / 2)) by lia.
    intros Hgv Hc. pose proof (Hsiblings j c Hj Hjq Hc).
    assert (key g ≤ key p)%Z; [|lia].
    apply (Hpairs ((pos - 1) / 2) g p); [done|done|lia|lia|done|done].
  - intros j c Hj Hjq Hc. pose proof (Hsiblings j c Hj Hjq Hc). lia.
Qed.

Lemma siftdown_loop_heap fuel heap x startpos pos :
  pos ≤ fuel → pos < length heap → below startpos pos →
  hole_ok key startpos pos heap →
  (∀ j c, 0 < j → (j - 1) / 2 = pos → heap !! j = Some c → (key x ≤ key c)%Z) →
  heap_from key startpos (siftdown_loop lt fuel heap x startpos pos).
Proof.
  revert heap pos. induction fuel as [|fuel IH];
    intros heap pos Hfuel Hpos Hbelow Hhole Hchildren; cbn [siftdown_loop].
  { apply hole_close; [done..|]. intros. lia. }
  pose proof (below_le _ _ Hbelow) as Hle.
  case_bool_decide as Hlt.
  2:{ apply hole_close; [done..|]. intros Hpos0 Hi. pose proof (parentpos_lt pos). lia. }
  pose proof (parentpos_lt pos) as Hq.
  destruct (heap !! ((pos - 1) / 2)) as [p|] eqn:Hp.
  2:{ apply lookup_ge_None in Hp. lia. }
  rewrite lt_key. destruct (Z.ltb_spec (key x) (key p)) as [Hxp|Hpx].
  - destruct (hole_up startpos pos heap x p) as [Hhole' Hchildren']; [done..|].
    destruct (below_parent startpos pos Hbelow Hlt) as [Hbelow' _].
    apply IH; [lia|rewrite length_insert; lia|done..].
  - apply hole_close; [done..|]. intros _ _ p' Hp'. rewrite Hp in Hp'. by injection Hp' as <-.
Qed.

Lemma smaller_child_spec heap pos c :
  2 * pos + 1 < length heap →
  heap !! smaller_child lt heap (length heap) (2 * pos + 1) = Some c →
  (smaller_child lt heap (length heap) (2 * pos + 1) - 1) / 2 = pos ∧
  ∀ j c', 0 < j → (j - 1) / 2 = pos → heap !! j = Some c' → (key c ≤ key c')%Z.
Proof.
  intros Hleft. unfold smaller_child.
  destruct (heap !! (2 * pos + 1)) as [l|] eqn:Hl; [|apply lookup_ge_None in Hl; lia].
  replace (2 * pos + 1 + 1) with (2 * pos + 2) by lia.
  case_bool_decide as Hright.
  - destruct (heap !! (2 * pos + 2)) as [r|] eqn:Hr; [|apply lookup_ge_None in Hr; lia].
    rewrite lt_key. destruct (Z.ltb_spec (key l) (key r)).
    + rewrite Hl. intros [= <-]. split; [apply parentpos_left|].
      intros j c' Hj Hjp Hc'.
      apply parentpos_child in Hjp as [-> | ->]; [| |done]; simplify_eq; lia.
    + rewrite Hr. intros [= <-]. split; [apply parentpos_right|].
      intros j c' Hj Hjp Hc'.
      apply parentpos_child in Hjp as [-> | ->]; [| |done]; simplify_eq; lia.
  - rewrite Hl. intros [= <-]. split; [apply parentpos_left|].
    intros j c' Hj Hjp Hc'. apply parentpos_child in Hjp as [-> | ->]; [| |done].
    + simplify_eq. lia.
    + apply lookup_lt_Some in Hc'. lia.
Qed.

(** One step of [_siftup]: the smaller child moves up into the hole. *)
Lemma hole_down i pos heap c :
  pos < length heap → below i pos → 2 * pos + 1 < length heap →
  hole_ok key i pos heap →
  heap !! smaller_child lt heap (length heap) (2 * pos + 1) = Some c →
  hole_ok key i (smaller_child lt heap (length heap) (2 * pos + 1)) (<[pos := c]> heap).
Proof.
  intros Hpos Hbelow Hleft [Hpairs Hacross] Hc.
  destruct (smaller_child_spec heap pos c Hleft Hc) as [Hparent Hsmaller].
  pose proof (smaller_child_range lt heap (length heap) _ Hleft) as Hrange.
  pose proof (below_le _ _ Hbelow) as Hle.
  set (child := smaller_child lt heap (length heap) (2 * pos + 1)) in *.
  split.
  - intros j p c' Hj Hi Hjc Hpc.
    destruct (decide (j = pos)) as [->|Hjpos].
    + rewrite list_lookup_insert_eq by done.
      rewrite list_lookup_insert_ne by (pose proof (parentpos_lt pos); lia).
      intros Hp [= <-]. apply (Hacross child p c); [done|done|lia|done|done|done].
    + rewrite (list_lookup_insert_ne _ pos j) by done.
      destruct (decide ((j - 1) / 2 = pos)) as [Heq|Hne].
      * rewrite Heq, list_lookup_insert_eq by done. intros [= <-] Hc'.
        by apply (Hsmaller j).
      * rewrite list_lookup_insert_ne by done. by apply Hpairs.
  - intros j p c' Hchild Hi Hj Hjc. rewrite Hparent.
    rewrite list_lookup_insert_eq by done. intros [= <-].
    pose proof (parentpos_lt j Hj).
    rewrite list_lookup_insert_ne by lia. intros Hc'.
    apply (Hpairs j c c'); [done|lia|lia|lia|by rewrite Hjc|done].
Qed.

Lemma siftup_loop_hole fuel heap pos heap' pos' i :
  below i pos → pos < length heap → hole_ok key i pos heap →
  length heap - pos ≤ fuel →
  siftup_loop lt fuel heap (length heap) pos = (heap', pos') →
  hole_ok key i pos' heap' ∧ below i pos' ∧ pos' < length heap' ∧
  length heap' = length heap ∧ length heap ≤ 2 * pos' + 1.
Proof.
  revert heap pos. induction fuel as [|fuel IH];
    intros heap pos Hbelow Hpos Hhole Hfuel; cbn [siftup_loop]; [lia|].
  case_bool_decide as Hleft; [|intros [= <- <-]; split_and!; (done || lia)].
  pose proof (smaller_child_range lt heap (length heap) _ Hleft) as Hrange.
  destruct (heap !! smaller_child lt heap (length heap) (2 * pos + 1)) as [c|] eqn:Hc.
  2:{ apply lookup_ge_None in Hc. lia. }
  destruct (smaller_child_spec heap pos c Hleft Hc) as [Hparent _].
  pose proof (hole_down i pos heap c Hpos Hbelow Hleft Hhole Hc) as Hhole'.
  intros Hrun. rewrite <- (length_insert heap pos c) in Hrun.
  apply IH in Hrun; rewrite ?length_insert in *; [done| |lia|done|lia].
  apply below_child; [lia|]. by rewrite Hparent.
Qed.

(** [_siftup(heap, i)] extends the heap order from the indices above
    [i] to [i]. *)
Lemma siftup_heap heap i :
  i < length heap → heap_from key (S i) heap → heap_from key i (siftup lt heap i).
Proof.
  intros Hi Hheap. unfold siftup.
  destruct (heap !! i) as [x|] eqn:Hx; [|apply lookup_ge_None in Hx; lia].
  destruct (siftup_loop lt (length heap) heap (length heap) i) as [heap' pos'] eqn:Hrun.
  apply (siftup_loop_hole _ _ _ _ _ i) in Hrun as (Hhole & Hbelow & Hpos' & Hlen & Hleaf);
    [|constructor|done| |lia].
  2:{ split.
      - intros j p c Hj Hij Hji Hpi. apply Hheap; [done|lia].
      - intros j p c H0 Hparent. pose proof (parentpos_lt i). lia. }
  unfold siftdown. rewrite list_lookup_insert_eq by done.
  apply siftdown_loop_heap; [done|by rewrite length_insert|done|by apply hole_ok_insert|].
  intros j c Hj Hjp Hc. apply lookup_lt_Some in Hc. rewrite length_insert in Hc.
  apply parentpos_child in Hjp; [|done]. lia.
Qed.

Lemma siftup_length heap i : length (siftup lt heap i) = length heap.
Proof. apply Permutation_length, siftup_perm. Qed.

Lemma heapify_heap heap : min_heap key (heapify lt heap).
Proof.
  apply heap_from_min_heap. unfold heapify.
  assert (heap_from key (length heap / 2) heap) as Hstart.
  { intros j p c Hj Hi Hp Hc. apply lookup_lt_Some in Hc.
    pose proof (Nat.div_mod_eq (length heap) 2). pose proof (Nat.mod_upper_bound (length heap) 2).
    pose proof (Nat.div_mod_eq (j - 1) 2). pose proof (Nat.mod_upper_bound (j - 1) 2). lia. }
  assert (length heap / 2 ≤ length heap) as Hbound.
  { apply Nat.Div0.div_le_upper_bound. lia. }
  revert Hstart Hbound. generalize (length heap / 2). intros m. revert heap.
  induction m as [|m IH]; intros heap Hstart Hbound; [done|].
  rewrite seq_S, reverse_snoc. simpl. apply IH.
  - apply siftup_heap; [lia|done].
  - rewrite siftup_length. lia.
Qed.

Lemma heappush_heap heap x : min_heap key heap → min_heap key (heappush lt heap x).
Proof.
  intros Hheap%heap_from_min_heap. apply heap_from_min_heap.
  unfold heappush. cbv zeta. unfold siftdown.
  rewrite length_app. simpl. replace (length heap + 1 - 1) with (length heap) by lia.
  rewrite lookup_app_r, Nat.sub_diag by done. simpl.
  apply siftdown_loop_heap; [done|rewrite length_app; simpl; lia|apply below_zero| |].
  - split.
    + intros j p c Hj _ Hjn Hpn Hp Hc.
      assert (j < length heap).
      { apply lookup_lt_Some in Hc. rewrite length_app in Hc. simpl in Hc. lia. }
      pose proof (parentpos_lt j Hj).
      rewrite lookup_app_l in Hp, Hc by lia. by apply (Hheap j); [done|lia|..].
    + intros j p c _ _ Hj Hjp _ Hc. apply lookup_lt_Some in Hc.
      rewrite length_app in Hc. simpl in Hc. apply parentpos_child in Hjp; [|done]. lia.
  - intros j c Hj Hjp Hc. apply lookup_lt_Some in Hc.
    rewrite length_app in Hc. simpl in Hc. apply parentpos_child in Hjp; [|done]. lia.
Qed.

Lemma heap_root_least heap r j y :
  min_heap key heap → heap !! 0 = Some r → heap !! j = Some y → (key r ≤ key y)%Z.
Proof.
  intros Hheap Hr. revert y. induction (lt_wf j) as [j _ IH]. intros y Hy.
  destruct (decide (j = 0)) as [->|Hne]; [simplify_eq; lia|].
  pose proof (parentpos_lt j) as Hq.
  destruct (heap !! ((j - 1) / 2)) as [p|] eqn:Hp.
  2:{ apply lookup_ge_None in Hp. apply lookup_lt_Some in Hy. lia. }
  pose proof (IH _ (Hq ltac:(lia)) p Hp). pose proof (Hheap j p y ltac:(lia) Hp Hy). lia.
Qed.

Lemma heappop_heap heap x heap' :
  min_heap key heap → heappop lt heap = Some (x, heap') →
  min_heap key heap' ∧ Forall (λ y, key x ≤ key y)%Z heap.
Proof.
  intros Hheap. unfold heappop.
  destruct (last heap) as [lastelt|] eqn:Hlast; [|done].
  apply last_Some in Hlast as [front ->]. rewrite removelast_last.
  destruct front as [|returnitem rest]; intros [= <- <-].
  { split; [by intros j p c _ ?|]. constructor; [lia|done]. }
  split.
  - apply heap_from_min_heap, siftup_heap; [simpl; lia|].
    intros j p c Hj Hi Hp Hc.
    pose proof (parentpos_lt j Hj).
    assert (j < S (length rest)) by (by apply lookup_lt_Some in Hc).
    destruct j as [|j]; [lia|]. destruct ((S j - 1) / 2) as [|q] eqn:Hq; [lia|].
    simpl in Hp, Hc. apply (Hheap (S j) p c); [lia| |].
    + rewrite Hq. simpl. rewrite lookup_app_l; [done|]. by eapply lookup_lt_Some.
    + simpl. rewrite lookup_app_l; [done|]. by eapply lookup_lt_Some.
  - apply Forall_forall. intros y [j Hy]%list_elem_of_lookup.
    by eapply (heap_root_least _ returnitem j y).
Qed.

End heap_order.

(** ** The min-heap of [build_huffman_tree] *)

Section huffman_heap.
Context {A : Type}.
Implicit Types (heap : list (Node A)) (node : Node A).

Lemma Node_lt_freq (a b : Node A) : Node_lt a b = (freq a <? freq b)%Z.
Proof. done. Qed.

(** X15.  [heapq.heapify] orders any list of nodes as a min-heap on the
    frequency: no node is below its parent in the list. *)
Theorem heapify_min_heap heap : min_heap freq (heapify Node_lt heap).
Proof. apply heapify_heap, Node_lt_freq. Qed.

(** X16.  [heapq.heappop] on a min-heap returns a node of least frequency and
    leaves a min-heap of the other nodes. *)
Theorem heappop_least heap node heap' :
  min_heap freq heap → heappop Node_lt heap = Some (node, heap') →
  Forall (λ other, freq node ≤ freq other)%Z heap ∧
  node :: heap' ≡ₚ heap ∧ min_heap freq heap'.
Proof.
  intros Hheap Hpop.
  destruct (heappop_heap Node_lt freq Node_lt_freq heap node heap' Hheap Hpop).
  split_and!; [done| |done]. by apply (heappop_perm Node_lt).
Qed.

(** X17.  One turn of the loop of [build_huffman_tree] on a min-heap: the two
    nodes taken out are of least frequency, the first not above the
    second and the second not above any node left, and the loop goes on
    with a min-heap of the merged node and the nodes left. *)
Theorem merge_step_least fuel heap :
  min_heap freq heap → 1 < length heap →
  ∃ l r rest heap',
    heap ≡ₚ l :: r :: rest ∧
    (freq l ≤ freq r)%Z ∧ Forall (λ other, freq r ≤ freq other)%Z rest ∧
    heap' ≡ₚ mkNode None (freq l + freq r)%Z (Some l) (Some r) :: rest ∧
    min_heap freq heap' ∧
    merge_loop (S fuel) heap = merge_loop fuel heap'.
Proof.
  intros Hheap Hlen. cbn [merge_loop]. rewrite bool_decide_true by done.
  destruct (heappop_is_Some Node_lt heap) as [[l heap1] Hpop1].
  { intros ->. simpl in Hlen. lia. }
  destruct (heappop_heap Node_lt freq Node_lt_freq heap l heap1 Hheap Hpop1) as [Hheap1 Hl].
  pose proof (heappop_perm Node_lt heap l heap1 Hpop1) as Hperm1.
  destruct (heappop_is_Some Node_lt heap1) as [[r heap2] Hpop2].
  { intros ->. apply Permutation_length in Hperm1. simpl in Hperm1. lia. }
  destruct (heappop_heap Node_lt freq Node_lt_freq heap1 r heap2 Hheap1 Hpop2) as [Hheap2 Hr].
  pose proof (heappop_perm Node_lt heap1 r heap2 Hpop2) as Hperm2.
  rewrite Hpop1, Hpop2.
  set (merged := mkNode None (freq l + freq r)%Z (Some l) (Some r)).
  exists l, r, heap2, (heappush Node_lt heap2 merged).
  split_and!; [by rewrite <- Hperm1, <- Hperm2| | |apply heappush_perm| |done].
  - rewrite <- Hperm1, <- Hperm2 in Hl.
    apply Forall_cons in Hl as [_ Hl]. by apply Forall_cons in Hl as [? _].
  - rewrite <- Hperm2 in Hr. by apply Forall_cons in Hr as [_ ?].
  - by apply (heappush_heap Node_lt freq Node_lt_freq).
Qed.

End huffman_heap.

Lemma heappop_least_witness :
  let leaf (c : ascii) f := mkNode (Some c) f None None in
  let heap := heapify Node_lt [leaf "a"%char 3%Z; leaf "b"%char 2%Z; leaf "c"%char 1%Z] in
  Forall (λ other, freq (leaf "c"%char 1%Z) ≤ freq other)%Z heap ∧
  leaf "c"%char 1%Z :: [leaf "b"%char 2%Z; leaf "a"%char 3%Z] ≡ₚ heap ∧
  min_heap freq [leaf "b"%char 2%Z; leaf "a"%char 3%Z].
Proof.
  intros leaf heap. apply (heappop_least heap).
  - apply heapify_heap, Node_lt_freq.
  - vm_compute. reflexivity.
Defined.

Lemma merge_step_least_witness :
  let leaf (c : ascii) f := mkNode (Some c) f None None in
  let heap := heapify Node_lt [leaf "a"%char 3%Z; leaf "b"%char 2%Z; leaf "c"%char 1%Z] in
  ∃ l r rest heap',
    heap ≡ₚ l :: r :: rest ∧
    (freq l ≤ freq r)%Z ∧ Forall (λ other, freq r ≤ freq other)%Z rest ∧
    heap' ≡ₚ mkNode None (freq l + freq r)%Z (Some l) (Some r) :: rest ∧
    min_heap freq heap' ∧
    merge_loop 3 heap = merge_loop 2 heap'.
Proof.
  intros leaf heap. apply (merge_step_least 2 heap).
  - apply heapify_heap, Node_lt_freq.
  - vm_compute. lia.
Defined.

(** ** What the decoder reads back, and the size of the payload *)

Section read_back_properties.
Context {A : Type} `{EqDecision A}.
Context (json_dumps : Header A → list Z) (json_loads : list Z → option (LoadedHeader A)).
Context (big_endian : bool).
Implicit Types (text : list A) (file : list Z).

(** X20.  From a written container, the reading steps of [decompress_file]
    recover the frequency table of the text, in the same order, and the
    encoded bits without the padding, whatever the number of distinct
    symbols. *)
Theorem container_read_back text file :
  header_round_trip json_dumps json_loads (build_frequency_table text) →
  compress_file json_dumps big_endian text = Success file →
  ∃ header enc,
    json_loads (header_bytes_of big_endian file) = Some (loaded header) ∧
    h_freq header = build_frequency_table text ∧
    encode_text text
      (generate_codes (build_huffman_tree (build_frequency_table text)) [] []) = Some enc ∧
    remove_padding (bit_string_of (payload_of big_endian file)) (h_padding header) = enc.
Proof.
  intros Hjson
    (root & codes & data & length_bytes & Hne & Hroot & Hfull & Hnd & Hperm &
     Hcodes & Hdata & Hback & Hbytes & Hdata_ne & Hpack & ->)%compress_file_Success.
  destruct (file_parts _ _ _ data Hpack) as (-> & -> & _).
  destruct (pad_encoded_text_padding (concat codes)) as (Hrange & _).
  exists (mkHeader (build_frequency_table text) (pad_encoded_text (concat codes)).2),
    (concat codes).
  split_and!; [by apply Hjson|done| |].
  - rewrite Hroot, generate_codes_root by done. unfold encode_text.
    assert (mapM (dict_get (codes_of root [])) text = Some codes) as ->; [|done].
    apply mapM_Some. eapply Forall2_impl; [done|].
    intros c w Hw. apply dict_get_Some; [by rewrite codes_of_keys|done].
  - cbn [h_padding]. rewrite Hback, pad_encoded_text_padded. apply remove_padding_app. lia.
Qed.

Lemma codes_of_length (root : Node A) c w :
  full_tree root → (c, w) ∈ codes_of root [] →
  1 ≤ length w ≤ max 1 (length (leaves root) - 1).
Proof.
  intros Hfull Hw. destruct (codes_of_bits root c w Hfull Hw) as [_ Hne].
  split; [destruct w; simpl; [done|lia]|].
  destruct Hfull as [c' f|f l r Hl Hr].
  - apply list_elem_of_singleton in Hw as [= -> ->]. simpl. lia.
  - rewrite codes_of_merged_root in Hw.
    apply paths_length in Hw; [|by constructor]. lia.
Qed.

(** X21.  The payload of a written container spends at least one bit on every
    symbol of the text, and at most [n - 1] bits for a text of [n]
    distinct symbols (one bit for a single symbol), rounded up to whole
    bytes. *)
Theorem payload_size text file :
  compress_file json_dumps big_endian text = Success file →
  let payload_bits := 8 * length (payload_of big_endian file) in
  let distinct := length (build_frequency_table text) in
  length text ≤ payload_bits ∧
  payload_bits ≤ length text * max 1 (distinct - 1) + 7.
Proof.
  intros
    (root & codes & data & length_bytes & Hne & Hroot & Hfull & Hnd & Hperm &
     Hcodes & Hdata & Hback & Hbytes & Hdata_ne & Hpack & ->)%compress_file_Success.
  destruct (file_parts _ _ _ data Hpack) as (_ & -> & _). cbv zeta.
  destruct (pad_encoded_text_padding (concat codes)) as (Hrange & _).
  apply (f_equal length) in Hback.
  rewrite bit_string_of_length, pad_encoded_text_padded, length_app, length_replicate in Hback
    by done.
  apply Permutation_length in Hperm. rewrite length_fmap in Hperm. rewrite <- Hperm.
  assert (length text ≤ length (concat codes) ∧
          length (concat codes) ≤ length text * max 1 (length (leaves root) - 1)) as [Hlow Hhigh].
  { clear -Hcodes Hfull. induction Hcodes as [|c w text codes Hw _ [IH1 IH2]]; [done|].
    apply codes_of_length in Hw as [Hw1 Hw2]; [|done].
    cbn [concat length]. rewrite length_app. split; lia. }
  split; lia.
Qed.

End read_back_properties.

Lemma compress_decompress_single_symbol_witness :
  ∃ file,
    compress_file JsonRef.dumps false (replicate 9 "a"%char) = Success file ∧
    decompress_file JsonRef.loads false file = Raised AttributeError.
Proof.
  eexists. split; [vm_compute; reflexivity|].
  apply (compress_decompress_single_symbol JsonRef.dumps JsonRef.loads false "a"%char 8).
  - intros padding Hrange.
    assert (padding = 0 ∨ padding = 1 ∨ padding = 2 ∨ padding = 3 ∨
            padding = 4 ∨ padding = 5 ∨ padding = 6 ∨ padding = 7)%Z as Hcases by lia.
    repeat (destruct Hcases as [-> | Hcases]); [..|subst padding]; vm_compute; reflexivity.
  - vm_compute; reflexivity.
Defined.

Lemma container_read_back_witness :
  ∃ file,
    compress_file JsonRef.dumps false (JsonRef.text_of "aaabbc") = Success file ∧
    let text := JsonRef.text_of "aaabbc" in
    ∃ header enc,
      JsonRef.loads (header_bytes_of false file) = Some (loaded header) ∧
      h_freq header = build_frequency_table text ∧
      encode_text text
        (generate_codes (build_huffman_tree (build_frequency_table text)) [] []) = Some enc ∧
      remove_padding (bit_string_of (payload_of false file)) (h_padding header) = enc.
Proof.
  eexists. split; [vm_compute; reflexivity|].
  apply (container_read_back JsonRef.dumps JsonRef.loads false (JsonRef.text_of "aaabbc")).
  - intros padding Hrange.
    assert (padding = 0 ∨ padding = 1 ∨ padding = 2 ∨ padding = 3 ∨
            padding = 4 ∨ padding = 5 ∨ padding = 6 ∨ padding = 7)%Z as Hcases by lia.
    repeat (destruct Hcases as [-> | Hcases]); [..|subst padding]; vm_compute; reflexivity.
  - vm_compute; reflexivity.
Defined.

Lemma payload_size_witness :
  ∃ file,
    compress_file JsonRef.dumps false (JsonRef.text_of "aaabbc") = Success file ∧
    let text := JsonRef.text_of "aaabbc" in
    let payload_bits := 8 * length (payload_of false file) in
    let distinct := length (build_frequency_table text) in
    length text ≤ payload_bits ∧
    payload_bits ≤ length text * max 1 (distinct - 1) + 7.
Proof.
  eexists. split; [vm_compute; reflexivity|].
  apply (payload_size JsonRef.dumps false (JsonRef.text_of "aaabbc")).
  vm_compute; reflexivity.
Defined.
